(** * The in-memory event store of the MCP test server

    A shallow embedding of [InMemoryEventStore] from
    [src/test_mcp_server.py]: a bounded [deque] of entries per stream and a
    global dictionary from event ids to entries, with [store_event] and
    [replay_events_after] written in a small state-and-exception monad that
    follows the Python statement by statement.

    Two things come from outside the class and are made explicit:
    - [uuid4()]: every call of [store_event] draws one identifier; the drawn
      value is an argument of the embedded function, and a run of the store
      is a list of calls each carrying the value drawn for it;
    - [send_callback]: the caller's sink, a function that consumes one
      [EventMessage] and updates the caller's own state. It is taken to
      return normally and not to touch the store.

    The functions are modelled as they run from call to return; how the
    event loop interleaves coroutines is outside this development. *)

From Stdlib Require Import ZArith.
From stdpp Require Import gmap strings list fin_maps pretty.

Local Open Scope Z_scope.

(** [EventId] and [StreamId] are [str] in the MCP library. *)
Abbreviation EventId := string (only parsing).
Abbreviation StreamId := string (only parsing).

(** The exceptions the modelled statements can raise. *)
Inductive exn : Type :=
  | OverflowError (* deque(maxlen=n) with n outside a C ssize_t *)
  | ValueError    (* deque(maxlen=n) with n < 0 *)
  | IndexError    (* d[0] on an empty deque *)
  | KeyError.     (* m[k] on a dict without key k *)

Global Instance exn_eq_dec : EqDecision exn.
Proof. solve_decision. Defined.

(** * The tools of the server: list_tools and call_tool

    The arguments of a tool call are decoded JSON. Integers and strings are
    modelled exactly; every other value (None, booleans, floats, lists,
    dicts) is left to the Python runtime, which is a parameter: a type for
    those values, what [+] and [str] do on them, and the limit that
    [sys.get_int_max_str_digits()] puts on printing an integer (0 for no
    limit). *)

Inductive tool_exn : Type :=
  | TypeError              (* a + b on an int and a str *)
  | DigitLimit             (* ValueError: Exceeds the limit for integer
                              string conversion *)
  | Raised (cls : string). (* whatever the runtime raises on other values *)

Inductive py_value (O : Type) : Type :=
  | PInt (n : Z)
  | PStr (s : string)
  | POther (o : O).
Arguments PInt {O} n.
Arguments PStr {O} s.
Arguments POther {O} o.

Record PyRuntime : Type := mkRuntime {
  Other : Type;
  other_add : py_value Other → py_value Other → tool_exn + py_value Other;
  other_str : Other → tool_exn + string;
  int_max_str_digits : nat
}.

(** a + b *)
Definition py_add (rt : PyRuntime) (a b : py_value (Other rt))
    : tool_exn + py_value (Other rt) :=
  match a, b with
  | PInt x, PInt y => inr (PInt (x + y))
  | PStr x, PStr y => inr (PStr (x +:+ y))
  | PInt _, PStr _ => inl TypeError
  | PStr _, PInt _ => inl TypeError
  | _, _ => other_add rt a b
  end.

(** The number of decimal digits of an integer, sign apart. *)
Definition int_digits (n : Z) : nat := String.length (pretty (Z.abs n)).

(** str(n) for an int *)
Definition str_int (rt : PyRuntime) (n : Z) : tool_exn + string :=
  if bool_decide (0 < int_max_str_digits rt ∧
                  int_max_str_digits rt < int_digits n)%nat
  then inl DigitLimit
  else inr (pretty n).

(** str(v), also what an f-string puts for [{v}] *)
Definition py_str (rt : PyRuntime) (v : py_value (Other rt))
    : tool_exn + string :=
  match v with
  | PInt n => str_int rt n
  | PStr s => inr s
  | POther o => other_str rt o
  end.

(** types.TextContent(type=..., text=...) *)
Record TextContent : Type := mkTextContent {
  tc_type : string;
  tc_text : string
}.

(** What send_log_message is given. *)
Record LogMessage : Type := mkLogMessage {
  log_level : string;
  log_data : string;
  log_logger : string
}.

(** One property of an input schema. *)
Record SchemaProperty : Type := mkSchemaProperty {
  prop_type : string;
  prop_description : string
}.

(** The inputSchema of a tool; [required] is [None] when the key is absent. *)
Record InputSchema : Type := mkInputSchema {
  schema_type : string;
  schema_properties : list (string * SchemaProperty);
  schema_required : option (list string)
}.

(** types.Tool(name=..., description=..., inputSchema=...) *)
Record Tool : Type := mkTool {
  tool_name : string;
  tool_description : string;
  tool_inputSchema : InputSchema
}.

(** list_tools *)
Definition list_tools : list Tool :=
  [ mkTool "echo" "Echoes the input message back to the caller."
      (mkInputSchema "object"
         [("message", mkSchemaProperty "string" "The message to echo.")]
         (Some ["message"]));
    mkTool "add" "Adds two integers and returns the result."
      (mkInputSchema "object"
         [("a", mkSchemaProperty "integer" "The first number.");
          ("b", mkSchemaProperty "integer" "The second number.")]
         (Some ["a"; "b"]));
    mkTool "get_server_time"
      "Returns the current server time as an ISO 8601 string."
      (mkInputSchema "object" [] None) ].

(** A Python dict with string keys, as the list of its items in insertion
    order; the keys of a dict are pairwise distinct. *)
Abbreviation py_dict V := (list (string * V)) (only parsing).

(** d.get(k): the value the dict holds under [k], if any. *)
Fixpoint dict_get {V} (k : string) (d : py_dict V) : option V :=
  match d with
  | [] => None
  | (k', v) :: d' => if bool_decide (k' = k) then Some v else dict_get k d'
  end.

(** d[k] = v: the value is replaced where the key is, or the item is added
    at the end. *)
Fixpoint dict_set {V} (k : string) (v : V) (d : py_dict V) : py_dict V :=
  match d with
  | [] => [(k, v)]
  | (k', v') :: d' =>
      if bool_decide (k' = k) then (k, v) :: d' else (k', v') :: dict_set k v d'
  end.

(** Building the text of an f-string that shows the values [vs], left to
    right. The text goes to the logger, whose output depends on LOG_LEVEL and
    is not tracked here; the text is built in any case, and the first value
    that cannot be printed stops the call with its exception. A dict is
    shown through the repr of its values, which raises where str does. *)
Fixpoint format_all (rt : PyRuntime) (vs : list (py_value (Other rt)))
    : tool_exn + unit :=
  match vs with
  | [] => inr tt
  | v :: vs' =>
      match py_str rt v with
      | inl e => inl e
      | inr _ => format_all rt vs'
      end
  end.

(** Sequencing of expressions that may raise. *)
Definition and_then {A B} (r : tool_exn + A) (k : A → tool_exn + B)
    : tool_exn + B :=
  match r with
  | inl e => inl e
  | inr a => k a
  end.

(** call_tool

    [now] is the string [datetime.now(timezone.utc).isoformat()] gives at
    this call. The first component of the result is what was sent with
    send_log_message, the second what the call returns or raises. The call
    is taken to run inside a request, where send_log_message returns. *)
Definition call_tool (rt : PyRuntime) (now : string)
    (name : string) (arguments : py_dict (py_value (Other rt)))
    : list LogMessage * (tool_exn + list TextContent) :=
  (* logger.info(f"call_tool called for tool: '{name}' with arguments:
     {arguments}") *)
  match format_all rt arguments.*2 with
  | inl e => ([], inl e)
  | inr _ =>
    ([mkLogMessage "info" ("Executing tool '" +:+ name +:+ "'") "tool_executor"],
     if bool_decide (name = "echo") then
       let message :=
         default (PStr "No message provided") (dict_get "message" arguments) in
       (* logger.info(f"Tool 'echo' implementation: echoing '{message}'") *)
       and_then (format_all rt [message]) (λ _,
       and_then (py_str rt message) (λ shown,
       inr [mkTextContent "text" ("Echo: " +:+ shown)]))
     else if bool_decide (name = "add") then
       let a := default (PInt 0) (dict_get "a" arguments) in
       let b := default (PInt 0) (dict_get "b" arguments) in
       and_then (py_add rt a b) (λ result,
       (* logger.info(f"Tool 'add' implementation: {a} + {b} = {result}") *)
       and_then (format_all rt [a; b; result]) (λ _,
       and_then (py_str rt result) (λ shown,
       inr [mkTextContent "text" shown])))
     else if bool_decide (name = "get_server_time") then
       (* logger.info(f"... returning {now}"): [now] is a str *)
       inr [mkTextContent "text" now]
     else
       (* logger.error(f"Unknown tool called: {name}"): [name] is a str *)
       inr [mkTextContent "text" ("Error: Unknown tool '" +:+ name +:+ "'")])
  end.

(** A value that str can print. *)
Definition printable (rt : PyRuntime) (v : py_value (Other rt)) : bool :=
  match py_str rt v with
  | inl _ => false
  | inr _ => true
  end.

(** A runtime for examples: None is the only other value, the digit limit is
    CPython's default. *)
Definition sample_runtime : PyRuntime :=
  mkRuntime unit (λ _ _, inl TypeError) (λ _, inr "None") 4300.

(** Another one: the only other value is a list that holds an integer too
    long to print. *)
Definition sample_runtime_long : PyRuntime :=
  mkRuntime unit (λ _ _, inl TypeError) (λ _, inl DigitLimit) 4300.

(** Closed decidable facts, by evaluation. *)
Ltac by_evaluation := apply (bool_decide_unpack _); vm_compute; exact I.

(** sys.maxsize of a 64-bit CPython, for the examples. *)
Definition maxsize64 : positive := 2 ^ 63 - 1.

Section EventStore.
(** The JSON-RPC payload: the store never looks inside it. *)
Context {JSONRPCMessage : Type}.

(** sys.maxsize of the interpreter, the largest C ssize_t. *)
Variable sys_maxsize : positive.

(** @dataclass EventEntry *)
Record EventEntry : Type := mkEventEntry {
  event_id : EventId;
  stream_id : StreamId;
  message : JSONRPCMessage
}.

(** mcp's [EventMessage(message, event_id)], what the callback receives. *)
Record EventMessage : Type := mkEventMessage {
  em_message : JSONRPCMessage;
  em_event_id : EventId
}.

(** ** collections.deque with a maxlen *)
Record deque : Type := mkDeque {
  maxlen : Z;
  items : list EventEntry
}.

(** deque(maxlen=n): the bound is first converted to a C ssize_t, which
    fails for an int outside [-sys.maxsize - 1, sys.maxsize]; a negative
    bound is then rejected. *)
Definition deque_new (n : Z) : exn + deque :=
  if bool_decide (n < - Z.pos sys_maxsize - 1 ∨ Z.pos sys_maxsize < n) then
    inl OverflowError
  else if bool_decide (n < 0) then inl ValueError
  else inr (mkDeque n []).

(** len(d) *)
Definition deque_len (d : deque) : Z := Z.of_nat (length (items d)).

(** d[0] *)
Definition deque_first (d : deque) : exn + EventEntry :=
  match items d with
  | [] => inl IndexError
  | e :: _ => inr e
  end.

(** d.append(e): the entry goes to the right end; when that makes the
    deque longer than its bound, one entry is dropped from the left. *)
Definition deque_append (d : deque) (e : EventEntry) : deque :=
  let l := items d ++ [e] in
  mkDeque (maxlen d) (if maxlen d <? Z.of_nat (length l) then drop 1 l else l).

(** ** The store object *)
Record InMemoryEventStore : Type := mkStore {
  max_events_per_stream : Z;
  streams : gmap StreamId deque;
  event_index : gmap EventId EventEntry
}.

(** __init__ *)
Definition init (max_events_per_stream : Z) : InMemoryEventStore :=
  mkStore max_events_per_stream ∅ ∅.

(** ** Statements over the store: state plus exceptions *)
Definition M (A : Type) : Type :=
  InMemoryEventStore → InMemoryEventStore * (exn + A).

Definition ret {A} (a : A) : M A := λ self, (self, inr a).

Definition bind {A B} (m : M A) (k : A → M B) : M B :=
  λ self, match m self with
          | (self', inl e) => (self', inl e)
          | (self', inr a) => k a self'
          end.

(** an expression that may raise and does not touch the store *)
Definition lift {A} (r : exn + A) : M A := λ self, (self, r).

Definition gets {A} (f : InMemoryEventStore → A) : M A :=
  λ self, (self, inr (f self)).

Definition modify (f : InMemoryEventStore → InMemoryEventStore) : M unit :=
  λ self, (f self, inr tt).

Notation "x <- m ;; k" := (bind m (λ x, k))
  (at level 100, m at next level, right associativity, only parsing).
Notation "m ;;; k" := (bind m (λ _, k))
  (at level 100, right associativity, only parsing).

(** m[k] on a dict *)
Definition getitem {V} (m : gmap string V) (k : string) : exn + V :=
  match m !! k with
  | Some v => inr v
  | None => inl KeyError
  end.

(** self.streams[stream_id] *)
Definition get_stream (stream_id : StreamId) : M deque :=
  self_streams <- gets streams ;; lift (getitem self_streams stream_id).

(** self.streams[stream_id] = d, also the effect of mutating the deque
    object stored under that key *)
Definition set_stream (stream_id : StreamId) (d : deque) : M unit :=
  modify (λ self, mkStore (max_events_per_stream self)
                          (<[stream_id := d]> (streams self))
                          (event_index self)).

(** self.event_index.pop(k, None) *)
Definition index_pop (k : EventId) : M unit :=
  modify (λ self, mkStore (max_events_per_stream self)
                          (streams self)
                          (delete k (event_index self))).

(** self.event_index[k] = e *)
Definition index_set (k : EventId) (e : EventEntry) : M unit :=
  modify (λ self, mkStore (max_events_per_stream self)
                          (streams self)
                          (<[k := e]> (event_index self))).

(** ** store_event

    [uuid4] is the string [str(uuid4())] evaluates to in this call. *)
Definition store_event (uuid4 : EventId)
    (stream_id : StreamId) (message : JSONRPCMessage) : M EventId :=
  let new_id := uuid4 in
  let event_entry := mkEventEntry new_id stream_id message in
  self_streams <- gets streams ;;
  (if bool_decide (self_streams !! stream_id = None) then
     n <- gets max_events_per_stream ;;
     d <- lift (deque_new n) ;;
     set_stream stream_id d
   else ret tt) ;;;
  d <- get_stream stream_id ;;
  n <- gets max_events_per_stream ;;
  (if bool_decide (deque_len d = n) then
     d0 <- get_stream stream_id ;;
     oldest_event <- lift (deque_first d0) ;;
     index_pop (oldest_event.(event_id))
   else ret tt) ;;;
  d <- get_stream stream_id ;;
  set_stream stream_id (deque_append d event_entry) ;;;
  index_set new_id event_entry ;;;
  ret new_id.

(** ** replay_events_after

    The loop over the deque, with its flag [found_last]; [sink] is the
    caller's state, changed only by [send_callback]. *)
Section Replay.
Context {Sink : Type}.
Variable send_callback : EventMessage → Sink → Sink.

Fixpoint replay_loop (last_event_id : EventId)
    (stream_events : list EventEntry) (found_last : bool) (sink : Sink)
    : Sink :=
  match stream_events with
  | [] => sink
  | event :: rest =>
      if found_last then
        replay_loop last_event_id rest true
          (send_callback (mkEventMessage event.(message) event.(event_id)) sink)
      else if bool_decide (event.(event_id) = last_event_id) then
        replay_loop last_event_id rest true sink
      else
        replay_loop last_event_id rest false sink
  end.

(** The result is [None] for "not found" or the stream id, next to the
    state the sink is left in. *)
Definition replay_events_after (last_event_id : EventId) (sink : Sink)
    : M (option StreamId * Sink) :=
  index <- gets event_index ;;
  if bool_decide (index !! last_event_id = None) then
    ret (None, sink)
  else
    index <- gets event_index ;;
    last_event <- lift (getitem index last_event_id) ;;
    let sid := last_event.(stream_id) in
    self_streams <- gets streams ;;
    let stream_events :=
      match self_streams !! last_event.(stream_id) with
      | Some d => items d
      | None => []   (* .get(..., deque()) *)
      end in
    ret (Some sid, replay_loop last_event_id stream_events false sink).
End Replay.

(** ** Runs of the store

    One call of [store_event], with the identifier [uuid4()] produced for
    it. *)
Record call : Type := mkCall {
  c_uuid : EventId;
  c_stream : StreamId;
  c_message : JSONRPCMessage
}.

Definition do_call (c : call) : M EventId :=
  store_event c.(c_uuid) c.(c_stream) c.(c_message).

(** The store after a list of calls; a caller that gets an exception keeps
    the store as the failed call left it. *)
Definition exec (self : InMemoryEventStore) (cs : list call)
    : InMemoryEventStore :=
  foldl (λ st c, (do_call c st).1) self cs.

(** What each call of the run returned or raised, in order. *)
Fixpoint results (self : InMemoryEventStore) (cs : list call)
    : list (exn + EventId) :=
  match cs with
  | [] => []
  | c :: cs' => (do_call c self).2 :: results (do_call c self).1 cs'
  end.

(** The ids handed out by the calls of a run that returned. *)
Definition returned_ids (self : InMemoryEventStore) (cs : list call)
    : list EventId :=
  omap (λ r, match r with inr i => Some i | inl _ => None end) (results self cs).

(** ** The history of a run *)

(** The entry a call builds. *)
Definition entry_of (c : call) : EventEntry :=
  mkEventEntry c.(c_uuid) c.(c_stream) c.(c_message).

(** The message the callback gets for an entry. *)
Definition message_of (e : EventEntry) : EventMessage :=
  mkEventMessage e.(message) e.(event_id).

(** The calls of a run made on stream [s]. *)
Definition on_stream (s : StreamId) (cs : list call) : list call :=
  filter (λ c, c.(c_stream) = s) cs.

(** The last [n] elements of a list. *)
Definition lastn {A} (n : nat) (l : list A) : list A :=
  drop (length l - n) l.

(** The last [n] calls of a run made on stream [s]. *)
Definition recent (n : nat) (s : StreamId) (cs : list call) : list call :=
  lastn n (on_stream s cs).

(** What the log of stream [s] holds after the run [cs] when the bound is
    [n]: the entries of the last [n] calls on [s]. *)
Definition log_of (n : nat) (s : StreamId) (cs : list call) : list EventEntry :=
  entry_of <$> recent n s cs.

(** The call whose entry the next append on stream [s] pushes out, if the
    log is full. *)
Definition evicted (n : nat) (s : StreamId) (cs : list call) : option call :=
  if decide (n ≤ length (on_stream s cs))%nat then head (recent n s cs) else None.

(** The streams of [st] are what the run [cs] leaves under the bound [n]. *)
Definition streams_track (n : nat) (cs : list call)
    (st : InMemoryEventStore) : Prop :=
  max_events_per_stream st = Z.of_nat n ∧
  ∀ s, streams st !! s =
    if decide (on_stream s cs = []) then None
    else Some (mkDeque (Z.of_nat n) (log_of n s cs)).

(** The index of [st] holds exactly the entries of the calls still in a
    log. *)
Definition index_tracks (n : nat) (cs : list call)
    (st : InMemoryEventStore) : Prop :=
  ∀ id e, event_index st !! id = Some e ↔
    ∃ c, c ∈ recent n c.(c_stream) cs ∧ c.(c_uuid) = id ∧ e = entry_of c.

(** The entries of a log after the first one whose id is [id]. *)
Fixpoint entries_after (id : EventId) (events : list EventEntry)
    : list EventEntry :=
  match events with
  | [] => []
  | e :: rest =>
      if bool_decide (e.(event_id) = id) then rest else entries_after id rest
  end.

(** The callback applied to a list of entries, first to last. *)
Definition deliver {Sink} (send_callback : EventMessage → Sink → Sink)
    (es : list EventEntry) (sink : Sink) : Sink :=
  foldl (λ a e, send_callback (message_of e) a) sink es.

(** The index entries that belong to stream [t]. *)
Definition index_of_stream (t : StreamId) (self : InMemoryEventStore)
    : gmap EventId EventEntry :=
  filter (λ kv, kv.2.(stream_id) = t) (event_index self).

(** The length of the log of stream [s]; a stream without a deque has no
    entries. *)
Definition log_length (s : StreamId) (self : InMemoryEventStore) : nat :=
  match streams self !! s with
  | Some d => length (items d)
  | None => 0
  end.

(** ** Sample runs and a sample callback *)

(** A callback that appends what it is given to a list: the sink is then the
    sequence of the callback's invocations. *)
Definition recording (m : EventMessage) (seen : list EventMessage)
    : list EventMessage :=
  seen ++ [m].

(** Three calls on one stream. *)
Definition run_single (m1 m2 m3 : JSONRPCMessage) : list call :=
  [mkCall "e1" "S" m1; mkCall "e2" "S" m2; mkCall "e3" "S" m3].

(** Two streams taking turns. *)
Definition run_mixed (m1 m2 m3 m4 : JSONRPCMessage) : list call :=
  [mkCall "e1" "S" m1; mkCall "e2" "T" m2; mkCall "e3" "S" m3;
   mkCall "e4" "T" m4].

(** ** One call of store_event, case by case *)

Ltac run_M :=
  unfold store_event, get_stream, set_stream, index_pop, index_set,
    bind, ret, lift, gets, modify, getitem; simpl.

Lemma deque_new_in_range n :
  0 ≤ n ≤ Z.pos sys_maxsize → deque_new n = inr (mkDeque n []).
Proof.
  intros Hn. unfold deque_new. by rewrite !bool_decide_eq_false_2 by lia.
Qed.

Lemma deque_new_out_of_range n :
  n < 0 ∨ Z.pos sys_maxsize < n →
  deque_new n = inl (if bool_decide (n < - Z.pos sys_maxsize - 1 ∨
                                     Z.pos sys_maxsize < n)
                     then OverflowError else ValueError).
Proof.
  intros Hn. unfold deque_new. case_bool_decide; [done|].
  by rewrite bool_decide_eq_true_2 by lia.
Qed.

Lemma store_event_keeps_bound u s m st :
  max_events_per_stream (store_event u s m st).1 = max_events_per_stream st.
Proof.
  run_M. case_bool_decide as Hs; simpl.
  - destruct (decide (0 ≤ max_events_per_stream st ≤ Z.pos sys_maxsize)).
    2:{ by rewrite deque_new_out_of_range by lia. }
    rewrite deque_new_in_range by done; simpl.
    rewrite lookup_insert_eq; simpl.
    case_bool_decide as Hl; simpl; by rewrite lookup_insert_eq.
  - destruct (streams st !! s) as [d|] eqn:Hd; [|done]; simpl.
    case_bool_decide as Hl; simpl.
    + rewrite Hd; simpl. unfold deque_first.
      destruct (items d); simpl; [done|]. by rewrite Hd.
    + by rewrite Hd.
Qed.

(** A stream seen for the first time, with a positive bound. *)
Lemma store_event_new u s m st :
  streams st !! s = None → 0 < max_events_per_stream st ≤ Z.pos sys_maxsize →
  store_event u s m st =
    (mkStore (max_events_per_stream st)
       (<[s := mkDeque (max_events_per_stream st) [mkEventEntry u s m]]> (streams st))
       (<[u := mkEventEntry u s m]> (event_index st)), inr u).
Proof.
  intros Hs Hn. run_M. rewrite bool_decide_eq_true_2 by done; simpl.
  rewrite deque_new_in_range by lia; simpl.
  rewrite lookup_insert_eq; simpl.
  rewrite bool_decide_eq_false_2 by (unfold deque_len; simpl; lia); simpl.
  rewrite lookup_insert_eq; simpl. rewrite insert_insert_eq.
  unfold deque_append; simpl.
  destruct (Z.ltb_spec (max_events_per_stream st) (Z.of_nat 1)); [lia|done].
Qed.

(** A stream seen for the first time, with bound 0: the deque is created
    and d[0] fails. *)
Lemma store_event_new_zero u s m st :
  streams st !! s = None → max_events_per_stream st = 0 →
  store_event u s m st =
    (mkStore 0 (<[s := mkDeque 0 []]> (streams st)) (event_index st),
     inl IndexError).
Proof.
  intros Hs Hn. run_M. rewrite bool_decide_eq_true_2 by done; simpl.
  rewrite Hn. rewrite deque_new_in_range by lia; simpl.
  rewrite lookup_insert_eq; simpl.
  by rewrite lookup_insert_eq.
Qed.

(** A stream seen for the first time, with a bound that deque() refuses:
    the call fails there and nothing is changed. *)
Lemma store_event_new_refused u s m st :
  streams st !! s = None →
  max_events_per_stream st < 0 ∨ Z.pos sys_maxsize < max_events_per_stream st →
  store_event u s m st =
    (st, inl (if bool_decide
                   (max_events_per_stream st < - Z.pos sys_maxsize - 1 ∨
                    Z.pos sys_maxsize < max_events_per_stream st)
              then OverflowError else ValueError)).
Proof.
  intros Hs Hn. run_M. rewrite bool_decide_eq_true_2 by done; simpl.
  by rewrite deque_new_out_of_range.
Qed.

(** A known stream whose log is full: the first entry leaves the index. *)
Lemma store_event_full u s m st d o l :
  streams st !! s = Some d → items d = o :: l →
  deque_len d = max_events_per_stream st →
  store_event u s m st =
    (mkStore (max_events_per_stream st)
       (<[s := deque_append d (mkEventEntry u s m)]> (streams st))
       (<[u := mkEventEntry u s m]> (delete o.(event_id) (event_index st))),
     inr u).
Proof.
  intros Hs Hi Hl. run_M. unfold deque_first.
  repeat (first [rewrite Hs | rewrite Hi
                | rewrite bool_decide_eq_true_2 by done]; simpl).
  done.
Qed.

(** A known stream whose log is full and empty: the bound is 0. *)
Lemma store_event_full_empty u s m st d :
  streams st !! s = Some d → items d = [] →
  deque_len d = max_events_per_stream st →
  store_event u s m st = (st, inl IndexError).
Proof.
  intros Hs Hi Hl. run_M. unfold deque_first.
  repeat (first [rewrite Hs | rewrite Hi
                | rewrite bool_decide_eq_true_2 by done]; simpl).
  done.
Qed.

(** A known stream with room left. *)
Lemma store_event_room u s m st d :
  streams st !! s = Some d →
  deque_len d ≠ max_events_per_stream st →
  store_event u s m st =
    (mkStore (max_events_per_stream st)
       (<[s := deque_append d (mkEventEntry u s m)]> (streams st))
       (<[u := mkEventEntry u s m]> (event_index st)), inr u).
Proof.
  intros Hs Hl. run_M.
  repeat (first [rewrite Hs | rewrite bool_decide_eq_false_2 by done]; simpl).
  done.
Qed.

(** ** Lists: the last n elements *)

Lemma lastn_length {A} n (l : list A) : length (lastn n l) = (n `min` length l)%nat.
Proof. unfold lastn. rewrite length_drop. lia. Qed.

Lemma lastn_all {A} n (l : list A) : (length l ≤ n)%nat → lastn n l = l.
Proof. intros H. unfold lastn. by replace (length l - n)%nat with 0%nat by lia. Qed.

Lemma lastn_0 {A} (l : list A) : lastn 0 l = [].
Proof. unfold lastn. rewrite Nat.sub_0_r. apply drop_all. Qed.

Lemma lastn_snoc {A} n (l : list A) x :
  lastn n (l ++ [x]) =
    if decide (n ≤ length l)%nat then drop 1 (lastn n l ++ [x]) else lastn n l ++ [x].
Proof.
  unfold lastn. rewrite length_app; simpl. case_decide as Hn.
  - rewrite <- (drop_app_le l [x] (length l - n)) by lia.
    rewrite drop_drop. f_equal. lia.
  - replace (length l + 1 - n)%nat with 0%nat by lia.
    by replace (length l - n)%nat with 0%nat by lia.
Qed.

Lemma lastn_elem_of {A} n (l : list A) x : x ∈ lastn n l → x ∈ l.
Proof. unfold lastn. apply subseteq_drop. Qed.

(** d.append on a deque that holds the last n of [l] holds the last n of
    [l] with the new entry. *)
Lemma deque_append_lastn n (l : list EventEntry) e :
  deque_append (mkDeque (Z.of_nat n) (lastn n l)) e =
    mkDeque (Z.of_nat n) (lastn n (l ++ [e])).
Proof.
  unfold deque_append; simpl. f_equal. rewrite lastn_snoc.
  rewrite length_app, lastn_length; simpl.
  destruct (Z.ltb_spec (Z.of_nat n) (Z.of_nat (n `min` length l + 1)));
    case_decide; try lia; done.
Qed.

(** ** Runs *)

Lemma exec_snoc st cs c : exec st (cs ++ [c]) = (do_call c (exec st cs)).1.
Proof. unfold exec. by rewrite foldl_snoc. Qed.

Lemma exec_keeps_bound st cs :
  max_events_per_stream (exec st cs) = max_events_per_stream st.
Proof.
  induction cs as [|c cs IH] using rev_ind; [done|].
  rewrite exec_snoc. unfold do_call. by rewrite store_event_keeps_bound.
Qed.

Lemma on_stream_snoc s cs c :
  on_stream s (cs ++ [c]) =
    on_stream s cs ++ (if decide (c.(c_stream) = s) then [c] else []).
Proof.
  unfold on_stream. by rewrite filter_app.
Qed.

Lemma recent_elem_of n s cs c : c ∈ recent n s cs → c ∈ cs ∧ c.(c_stream) = s.
Proof.
  unfold recent, on_stream. intros H%lastn_elem_of.
  by apply list_elem_of_filter in H as [? ?].
Qed.

Lemma lastn_fmap {A B} (f : A → B) n (l : list A) :
  f <$> lastn n l = lastn n (f <$> l).
Proof. unfold lastn. by rewrite fmap_drop, length_fmap. Qed.

Lemma log_of_lastn n s cs :
  log_of n s cs = lastn n (entry_of <$> on_stream s cs).
Proof. unfold log_of, recent. apply lastn_fmap. Qed.

Lemma log_of_snoc n s cs c :
  log_of n s (cs ++ [c]) =
    if decide (c.(c_stream) = s)
    then lastn n ((entry_of <$> on_stream s cs) ++ [entry_of c])
    else log_of n s cs.
Proof.
  unfold log_of, recent. rewrite on_stream_snoc. case_decide.
  - by rewrite lastn_fmap, fmap_app.
  - by rewrite app_nil_r.
Qed.

(** ** One call on a store that follows its history *)

Lemma do_call_tracked n cs st c :
  Z.of_nat n ≤ Z.pos sys_maxsize →
  streams_track n cs st →
  do_call c st =
    if decide (n = 0%nat) then
      (mkStore 0 (<[c.(c_stream) := mkDeque 0 []]> (streams st)) (event_index st),
       inl IndexError)
    else
      (mkStore (Z.of_nat n)
         (<[c.(c_stream) :=
              mkDeque (Z.of_nat n) (log_of n c.(c_stream) (cs ++ [c]))]> (streams st))
         (<[c.(c_uuid) := entry_of c]>
            (match evicted n c.(c_stream) cs with
             | Some o => delete o.(c_uuid) (event_index st)
             | None => event_index st
             end)),
       inr c.(c_uuid)).
Proof.
  intros Hmax [Hn Hst]. destruct c as [u s0 m]. unfold do_call; simpl.
  specialize (Hst s0). unfold evicted.
  rewrite log_of_snoc; simpl. rewrite (decide_True (P := s0 = s0)) by done.
  destruct (decide (on_stream s0 cs = [])) as [Hnil|Hnil].
  - (* first call on this stream *)
    rewrite Hnil in *; simpl. destruct (decide (n = 0%nat)) as [Hn0|Hn0].
    + subst n. by apply store_event_new_zero.
    + rewrite store_event_new by (done || lia). rewrite Hn.
      rewrite (decide_False (P := (n ≤ 0)%nat)) by lia.
      by rewrite lastn_all by (simpl; lia).
  - (* the stream has a deque *)
    set (l := on_stream s0 cs) in *.
    assert (Hlen : length (log_of n s0 cs) = (n `min` length l)%nat).
    { unfold log_of, recent. by rewrite length_fmap, lastn_length. }
    destruct (decide (n ≤ length l)%nat) as [Hfull|Hfull].
    + destruct (log_of n s0 cs) as [|o rest] eqn:Hlog.
      * (* full and empty: the bound is 0 *)
        assert (n = 0%nat) as -> by (simpl in Hlen; lia).
        rewrite (decide_True (P := 0%nat = 0%nat)) by done.
        rewrite (store_event_full_empty _ _ _ _ _ Hst) by (done || (simpl; lia)).
        destruct st as [N ss idx]; simpl in *. subst N.
        by rewrite insert_id.
      * rewrite (decide_False (P := n = 0%nat)) by (simpl in Hlen; lia).
        rewrite (store_event_full _ _ _ _ _ o rest Hst)
          by (done || (unfold deque_len; simpl in *; lia)).
        rewrite Hn. rewrite <- Hlog.
        rewrite log_of_lastn, deque_append_lastn.
        unfold log_of in Hlog. destruct (recent n s0 cs) as [|oc rc]; [done|].
        simpl in *. by injection Hlog as <- _.
    + rewrite (decide_False (P := n = 0%nat)) by lia.
      rewrite (store_event_room _ _ _ _ _ Hst)
        by (unfold deque_len; simpl; lia).
      rewrite Hn. by rewrite log_of_lastn, deque_append_lastn.
Qed.

Lemma streams_track_init n : streams_track n [] (init (Z.of_nat n)).
Proof. split; [done|]. intros s. simpl. by rewrite lookup_empty. Qed.

Lemma streams_track_step n cs st c :
  Z.of_nat n ≤ Z.pos sys_maxsize →
  streams_track n cs st → streams_track n (cs ++ [c]) (do_call c st).1.
Proof.
  intros Hmax Ht. rewrite (do_call_tracked n cs st c Hmax Ht).
  destruct Ht as [Hn Hst].
  assert (Hne : on_stream c.(c_stream) (cs ++ [c]) ≠ []).
  { rewrite on_stream_snoc, decide_True by done. by destruct (on_stream _ cs). }
  case_decide as Hn0; (split; simpl; [by subst|]); intros s;
    (destruct (decide (c.(c_stream) = s)) as [<-|Hs];
     [ rewrite lookup_insert_eq, decide_False by done
     | rewrite lookup_insert_ne, Hst by done;
       rewrite log_of_snoc, on_stream_snoc;
       rewrite !(decide_False (P := c.(c_stream) = s)) by done;
       by rewrite app_nil_r ]).
  - subst n. unfold log_of, recent. by rewrite lastn_0.
  - done.
Qed.

Lemma streams_track_exec n cs :
  Z.of_nat n ≤ Z.pos sys_maxsize →
  streams_track n cs (exec (init (Z.of_nat n)) cs).
Proof.
  intros Hmax. induction cs as [|c cs IH] using rev_ind.
  - apply streams_track_init.
  - rewrite exec_snoc. by apply streams_track_step.
Qed.

(** ** Identifiers drawn once *)

Lemma uuid_inj cs c1 c2 :
  NoDup (c_uuid <$> cs) → c1 ∈ cs → c2 ∈ cs →
  c1.(c_uuid) = c2.(c_uuid) → c1 = c2.
Proof.
  induction cs as [|c cs IH]; simpl; intros Hnd H1 H2 Heq.
  - by apply elem_of_nil in H1.
  - apply NoDup_cons in Hnd as [Hc Hnd].
    apply elem_of_cons in H1 as [->|H1]; apply elem_of_cons in H2 as [->|H2];
      try done; [| |by apply IH]; exfalso; apply Hc.
    + rewrite Heq. by apply list_elem_of_fmap_2.
    + rewrite <- Heq. by apply list_elem_of_fmap_2.
Qed.

Lemma recent_sublist n s cs : recent n s cs `sublist_of` cs.
Proof.
  unfold recent, lastn, on_stream.
  etrans; [apply sublist_drop | apply sublist_filter].
Qed.

Lemma recent_NoDup n s cs : NoDup (c_uuid <$> cs) → NoDup (recent n s cs).
Proof.
  intros H%NoDup_fmap_1. eapply sublist_NoDup; [done | apply recent_sublist].
Qed.

Lemma recent_snoc n s cs c :
  recent n s (cs ++ [c]) =
    if decide (c.(c_stream) = s) then
      if decide (n ≤ length (on_stream s cs))%nat
      then drop 1 (recent n s cs ++ [c]) else recent n s cs ++ [c]
    else recent n s cs.
Proof.
  unfold recent. rewrite on_stream_snoc. case_decide.
  - apply lastn_snoc.
  - by rewrite app_nil_r.
Qed.

Lemma evicted_recent n s cs o : evicted n s cs = Some o → o ∈ recent n s cs.
Proof.
  unfold evicted. case_decide; [|done]. destruct (recent n s cs); [done|].
  simpl. intros [= ->]. apply list_elem_of_here.
Qed.

(** Which calls are still in their log after one more call. *)
Lemma recent_snoc_elem n cs c c' :
  (0 < n)%nat → NoDup (c_uuid <$> cs) →
  c' ∈ recent n c'.(c_stream) (cs ++ [c]) ↔
    c' = c ∨
    (c' ∈ recent n c'.(c_stream) cs ∧ evicted n c.(c_stream) cs ≠ Some c').
Proof.
  intros Hn Hnd. rewrite recent_snoc.
  destruct (decide (c.(c_stream) = c'.(c_stream))) as [Hs|Hs].
  - rewrite Hs. unfold evicted.
    pose proof (recent_NoDup n c'.(c_stream) cs Hnd) as Hr.
    assert (Hlen : length (recent n c'.(c_stream) cs) =
                     (n `min` length (on_stream c'.(c_stream) cs))%nat)
      by apply lastn_length.
    case_decide as Hfull.
    + destruct (recent n c'.(c_stream) cs) as [|o r]; simpl in *; [lia|].
      rewrite drop_0. apply NoDup_cons in Hr as [Ho Hr].
      rewrite elem_of_app, list_elem_of_singleton, elem_of_cons.
      split.
      * intros [H|H]; [right|by left].
        split; [by right|]. intros [= ->]. done.
      * intros [H|[[->|H] Hne]]; [by right| |by left]. done.
    + rewrite elem_of_app, list_elem_of_singleton. split.
      * intros [H|H]; [right|by left]. done.
      * intros [H|[H _]]; [by right|by left].
  - split.
    + intros H. right. split; [done|].
      intros [_ Ho]%evicted_recent%recent_elem_of. done.
    + intros [->|[H _]]; done.
Qed.

Lemma index_tracks_init n : index_tracks n [] (init (Z.of_nat n)).
Proof.
  intros id e. simpl. rewrite lookup_empty. split; [done|].
  intros (c & Hc & _). by apply elem_of_nil in Hc.
Qed.

Lemma index_tracks_step n cs st c :
  Z.of_nat n ≤ Z.pos sys_maxsize →
  NoDup (c_uuid <$> (cs ++ [c])) →
  streams_track n cs st → index_tracks n cs st →
  index_tracks n (cs ++ [c]) (do_call c st).1.
Proof.
  intros Hmax Hnd Ht Hi. rewrite (do_call_tracked n cs st c Hmax Ht).
  rewrite fmap_app in Hnd. apply NoDup_app in Hnd as (Hnd & Hfresh & _).
  assert (Hnew : ∀ c', c' ∈ cs → c'.(c_uuid) ≠ c.(c_uuid)).
  { intros c' Hc' Heq. apply (Hfresh c'.(c_uuid)).
    - by apply list_elem_of_fmap_2.
    - rewrite Heq. simpl. apply list_elem_of_here. }
  intros id e. case_decide as Hn0; simpl.
  - (* bound 0: nothing is ever indexed *)
    subst n. rewrite (Hi id e). unfold recent.
    split; intros (c' & Hc' & _); rewrite lastn_0 in Hc';
      by apply elem_of_nil in Hc'.
  - rewrite lookup_insert_Some. split.
    + intros [[<- <-]|[Hne Hl]].
      * exists c. split; [|done].
        apply recent_snoc_elem; [lia|done|by left].
      * assert (event_index st !! id = Some e ∧
                ∀ o, evicted n c.(c_stream) cs = Some o → o.(c_uuid) ≠ id)
          as [Hl' Hev].
        { destruct (evicted n c.(c_stream) cs) as [o|].
          - apply lookup_delete_Some in Hl as [Hne' Hl].
            split; [done|]. by intros o' [= <-].
          - split; [done|]. by intros o'. }
        apply Hi in Hl' as (c' & Hc' & Hid & ->).
        exists c'. split; [|done].
        apply recent_snoc_elem; [lia|done|]. right. split; [done|].
        intros Ho. by apply (Hev c').
    + intros (c' & Hc' & Hid & ->).
      apply recent_snoc_elem in Hc'; [|lia|done].
      destruct Hc' as [->|[Hc' Hev]].
      * by left.
      * pose proof (recent_elem_of _ _ _ _ Hc') as [Hin _].
        right. split; [rewrite <- Hid; intros Heq; by apply (Hnew c')|].
        assert (Hl : event_index st !! id = Some (entry_of c'))
          by (apply Hi; eauto).
        destruct (evicted n c.(c_stream) cs) as [o|] eqn:Ho; [|done].
        apply lookup_delete_Some. split; [|done].
        intros Heq. apply Hev. f_equal.
        apply evicted_recent, recent_elem_of in Ho as [Ho _].
        apply (uuid_inj cs); [done..|]. congruence.
Qed.

(** After any run that draws no identifier twice, from a fresh store with
    bound [n], the streams and the index are those of the history. *)
Lemma tracks_exec n cs :
  Z.of_nat n ≤ Z.pos sys_maxsize →
  NoDup (c_uuid <$> cs) →
  streams_track n cs (exec (init (Z.of_nat n)) cs) ∧
  index_tracks n cs (exec (init (Z.of_nat n)) cs).
Proof.
  intros Hmax Hnd. split; [by apply streams_track_exec|].
  induction cs as [|c cs IH] using rev_ind.
  - apply index_tracks_init.
  - rewrite exec_snoc.
    apply index_tracks_step; [done|done|by apply streams_track_exec|].
    apply IH. rewrite fmap_app in Hnd. by apply NoDup_app in Hnd as [? _].
Qed.

(** ** The replay loop *)

Section ReplayFacts.
Context {Sink : Type} (send_callback : EventMessage → Sink → Sink).

Lemma replay_loop_found id events sink :
  replay_loop send_callback id events true sink =
    deliver send_callback events sink.
Proof.
  revert sink. induction events as [|e rest IH]; intros sink; simpl; [done|].
  by rewrite IH.
Qed.

Lemma replay_loop_searching id events sink :
  replay_loop send_callback id events false sink =
    deliver send_callback (entries_after id events) sink.
Proof.
  induction events as [|e rest IH]; simpl; [done|].
  case_bool_decide; [apply replay_loop_found | apply IH].
Qed.

Lemma replay_not_found id sink st :
  event_index st !! id = None →
  replay_events_after send_callback id sink st = (st, inr (None, sink)).
Proof.
  intros H. unfold replay_events_after, bind, gets, ret; simpl.
  by rewrite bool_decide_eq_true_2.
Qed.

Lemma replay_found id sink st e :
  event_index st !! id = Some e →
  replay_events_after send_callback id sink st =
    (st, inr (Some e.(stream_id),
              deliver send_callback
                (entries_after id
                   (match streams st !! e.(stream_id) with
                    | Some d => items d
                    | None => []
                    end)) sink)).
Proof.
  intros H. unfold replay_events_after, bind, gets, ret, lift, getitem; simpl.
  rewrite bool_decide_eq_false_2 by (by rewrite H). rewrite H; simpl.
  by rewrite replay_loop_searching.
Qed.
End ReplayFacts.

Lemma entries_after_subseteq id events : entries_after id events ⊆ events.
Proof.
  induction events as [|e rest IH]; simpl; [done|].
  case_bool_decide; apply list_subseteq_cons; [done | apply IH].
Qed.

Lemma entries_after_split id pre e post :
  e.(event_id) = id → id ∉ event_id <$> pre →
  entries_after id (pre ++ e :: post) = post.
Proof.
  intros He. induction pre as [|p pre IH]; simpl; intros Hpre.
  - by rewrite bool_decide_eq_true_2.
  - apply not_elem_of_cons in Hpre as [Hp Hpre].
    rewrite bool_decide_eq_false_2 by done. by apply IH.
Qed.

(** ** What one call can return, on any store *)

Lemma store_event_cases u s m st :
  ((store_event u s m st).2 = inr u ∧
   event_index (store_event u s m st).1 ⊆
     <[u := mkEventEntry u s m]> (event_index st)) ∨
  (∃ e, store_event u s m st = (st, inl e) ∧
        (e = OverflowError ∨ e = ValueError) ∧
        (max_events_per_stream st < 0 ∨
         Z.pos sys_maxsize < max_events_per_stream st)) ∨
  ((store_event u s m st).2 = inl IndexError ∧ max_events_per_stream st = 0 ∧
   event_index (store_event u s m st).1 = event_index st).
Proof.
  destruct (streams st !! s) as [d|] eqn:Hs.
  - destruct (decide (deque_len d = max_events_per_stream st)) as [Hl|Hl].
    + destruct (items d) as [|o l] eqn:Hi.
      * right; right. rewrite (store_event_full_empty u s m st d) by done.
        unfold deque_len in Hl. rewrite Hi in Hl. simpl in *. done.
      * left. rewrite (store_event_full u s m st d o l) by done.
        split; [done|]. simpl. apply insert_mono, delete_subseteq.
    + left. by rewrite (store_event_room u s m st d).
  - destruct (decide (max_events_per_stream st < 0 ∨
                      Z.pos sys_maxsize < max_events_per_stream st))
      as [Hout|Hin].
    + right; left. rewrite store_event_new_refused by done.
      eexists. split; [done|]. split; [|done]. case_bool_decide; auto.
    + destruct (decide (max_events_per_stream st = 0)) as [Hn|Hn].
      * right; right. by rewrite store_event_new_zero.
      * left. by rewrite store_event_new by (done || lia).
Qed.

(** With a bound of at least 1 that deque() accepts, a call returns the
    identifier drawn for it, whatever the store holds. *)
Lemma store_event_returns u s m st :
  1 ≤ max_events_per_stream st ≤ Z.pos sys_maxsize →
  (store_event u s m st).2 = inr u.
Proof.
  intros Hn.
  destruct (store_event_cases u s m st)
    as [[H _]|[(e & _ & _ & H)|(_ & H & _)]]; [done|lia..].
Qed.

Lemma results_returns st cs :
  1 ≤ max_events_per_stream st ≤ Z.pos sys_maxsize →
  results st cs = (λ c, inr c.(c_uuid)) <$> cs.
Proof.
  revert st. induction cs as [|c cs IH]; intros st Hn; simpl; [done|].
  unfold do_call at 1. rewrite store_event_returns by done. f_equal.
  apply IH. unfold do_call. by rewrite store_event_keeps_bound.
Qed.

(** With a bound that deque() refuses, every call fails there and the
    store stays as it was created. *)
Lemma exec_refused N cs :
  N < 0 ∨ Z.pos sys_maxsize < N → exec (init N) cs = init N.
Proof.
  intros Hn. induction cs as [|c cs IH] using rev_ind; [done|].
  rewrite exec_snoc, IH. unfold do_call. by rewrite store_event_new_refused.
Qed.

Lemma results_refused N cs r :
  N < 0 ∨ Z.pos sys_maxsize < N → r ∈ results (init N) cs → ∃ e, r = inl e.
Proof.
  intros Hn. induction cs as [|c cs IH]; simpl.
  - by intros ?%elem_of_nil.
  - unfold do_call. rewrite store_event_new_refused by done. simpl.
    intros [->|Hr]%elem_of_cons; [eauto|]. by apply IH.
Qed.

(** An id enters the index only as the return value of a call. *)
Lemma index_returned st cs id :
  is_Some (event_index (exec st cs) !! id) →
  is_Some (event_index st !! id) ∨ id ∈ returned_ids st cs.
Proof.
  revert st. induction cs as [|c cs IH]; intros st; simpl; [by left|].
  intros H. apply IH in H as [H|H].
  - unfold returned_ids; simpl. unfold do_call in *.
    destruct (store_event_cases c.(c_uuid) c.(c_stream) c.(c_message) st)
      as [[Hr Hi]|[(e & Hr & _)|(Hr & _ & Hi)]].
    + rewrite Hr. destruct (decide (id = c.(c_uuid))) as [->|Hne].
      * right. apply list_elem_of_here.
      * left. eapply lookup_weaken_is_Some in H; [|exact Hi].
        by rewrite lookup_insert_ne in H.
    + rewrite Hr in *. by left.
    + rewrite Hi in H. by left.
  - right. unfold returned_ids in *; simpl.
    destruct (do_call c st).2; [done|]. by apply list_elem_of_further.
Qed.

Lemma on_stream_uuid_NoDup s cs :
  NoDup (c_uuid <$> cs) → NoDup (c_uuid <$> on_stream s cs).
Proof.
  intros H. eapply sublist_NoDup; [exact H|].
  apply fmap_sublist, sublist_filter.
Qed.

Lemma entry_of_event_id (l : list call) :
  event_id <$> (entry_of <$> l) = c_uuid <$> l.
Proof. rewrite <- list_fmap_compose. by apply list_fmap_ext. Qed.

(** ** Properties of the store *)

(** C1. A run from a fresh store with bound N draws no identifier twice
    (uuid4) and makes at most N calls on stream [s], possibly among calls on
    other streams. For each call [c] on [s] whose id was returned by the
    run, replay after that id hands the callback the entries of the later
    calls on [s], one each, in the order they were stored, and returns
    [s]. *)
Theorem replay_after_returns_suffix
    (N : Z) (cs : list call) (s : StreamId) (pre post : list call) (c : call)
    {Sink : Type} (send_callback : EventMessage → Sink → Sink) (sink : Sink) :
  NoDup (c_uuid <$> cs) →
  on_stream s cs = pre ++ c :: post →
  Z.of_nat (length (on_stream s cs)) ≤ N →
  inr c.(c_uuid) ∈ results (init N) cs →
  replay_events_after send_callback c.(c_uuid) sink (exec (init N) cs) =
    (exec (init N) cs,
     inr (Some s, deliver send_callback (entry_of <$> post) sink)).
Proof.
  intros Hnd Hsplit Hlen Hret.
  assert (HN : 1 ≤ N) by (rewrite Hsplit, length_app in Hlen; simpl in Hlen; lia).
  assert (Hmax : Z.of_nat (Z.to_nat N) ≤ Z.pos sys_maxsize).
  { destruct (decide (Z.pos sys_maxsize < N)) as [Hover|?]; [|lia].
    by apply results_refused in Hret as [? ?]; [|auto]. }
  clear Hret.
  assert (Hc : c ∈ on_stream s cs)
    by (rewrite Hsplit, elem_of_app, elem_of_cons; auto).
  pose proof Hc as [Hcs Hin]%list_elem_of_filter.
  rewrite <- (Z2Nat.id N) by lia. set (n := Z.to_nat N).
  destruct (tracks_exec n cs Hmax Hnd) as [[_ Hst] Hidx].
  assert (Hrecent : recent n s cs = on_stream s cs)
    by (apply lastn_all; lia).
  assert (Hl : event_index (exec (init (Z.of_nat n)) cs) !! c.(c_uuid)
               = Some (entry_of c)).
  { apply Hidx. exists c. rewrite Hcs, Hrecent. done. }
  rewrite (replay_found _ _ _ _ _ Hl); simpl. rewrite Hcs, Hst.
  rewrite decide_False by (rewrite Hsplit; by destruct pre).
  simpl. unfold log_of. rewrite Hrecent, Hsplit, fmap_app, fmap_cons.
  rewrite entries_after_split; [done..|].
  rewrite entry_of_event_id.
  pose proof (on_stream_uuid_NoDup s cs Hnd) as Hnd'.
  rewrite Hsplit, fmap_app, fmap_cons in Hnd'.
  apply NoDup_app in Hnd' as (_ & Hpre & _).
  intros Hp. apply (Hpre _ Hp). apply list_elem_of_here.
Qed.

Lemma recent_uuid_NoDup n s cs :
  NoDup (c_uuid <$> cs) → NoDup (c_uuid <$> recent n s cs).
Proof.
  intros H. eapply sublist_NoDup; [exact H|].
  apply fmap_sublist, recent_sublist.
Qed.

(** The index entries of one stream are the entries of its log. *)
Lemma index_of_stream_tracked n cs t :
  Z.of_nat n ≤ Z.pos sys_maxsize →
  NoDup (c_uuid <$> cs) →
  index_of_stream t (exec (init (Z.of_nat n)) cs) =
    list_to_map ((λ c, (c.(c_uuid), entry_of c)) <$> recent n t cs).
Proof.
  intros Hmax Hnd. destruct (tracks_exec n cs Hmax Hnd) as [_ Hidx].
  unfold index_tracks in Hidx.
  assert (Hfst : ((λ c, (c.(c_uuid), entry_of c)) <$> recent n t cs).*1
                 = c_uuid <$> recent n t cs).
  { rewrite <- list_fmap_compose. by apply list_fmap_ext. }
  apply map_eq. intros id. apply option_eq. intros e.
  unfold index_of_stream. rewrite map_lookup_filter_Some; simpl.
  rewrite <- elem_of_list_to_map
    by (rewrite Hfst; by apply recent_uuid_NoDup).
  rewrite list_elem_of_fmap, Hidx. split.
  - intros [(c & Hc & Hid & ->) Ht]. simpl in Ht. subst.
    exists c. done.
  - intros (c & [= -> ->] & Hc).
    pose proof (recent_elem_of _ _ _ _ Hc) as [_ Hs]. subst t.
    split; [|done]. exists c. done.
Qed.

Lemma index_of_stream_init t N : index_of_stream t (init N) = ∅.
Proof. unfold index_of_stream. simpl. apply map_filter_empty. Qed.

Lemma index_of_stream_size n cs t :
  Z.of_nat n ≤ Z.pos sys_maxsize →
  NoDup (c_uuid <$> cs) →
  (size (index_of_stream t (exec (init (Z.of_nat n)) cs)) ≤ n)%nat.
Proof.
  intros Hmax Hnd. rewrite index_of_stream_tracked by done.
  rewrite map_size_list_to_map.
  - unfold recent. rewrite length_fmap, lastn_length. lia.
  - rewrite <- list_fmap_compose.
    by apply (recent_uuid_NoDup n t cs).
Qed.

(** C2. A run from a fresh store with bound N draws no identifier twice.
    When the calls on a stream split into the last N of them and older
    ones, the id of every older call is out of the index and replay after
    it answers [None] without using the callback; and after every prefix of
    the run the index holds at most N entries of any one stream. *)
Theorem evicted_ids_not_found_index_bounded (N : Z) (cs : list call) :
  0 ≤ N → NoDup (c_uuid <$> cs) →
  (∀ s old kept c,
     on_stream s cs = old ++ kept → Z.of_nat (length kept) = N → c ∈ old →
     event_index (exec (init N) cs) !! c.(c_uuid) = None ∧
     ∀ (Sink : Type) (f : EventMessage → Sink → Sink) (sink : Sink),
       replay_events_after f c.(c_uuid) sink (exec (init N) cs) =
         (exec (init N) cs, inr (None, sink))) ∧
  (∀ cs1 cs2 t,
     cs = cs1 ++ cs2 →
     Z.of_nat (size (index_of_stream t (exec (init N) cs1))) ≤ N).
Proof.
  intros HN Hnd.
  destruct (decide (Z.pos sys_maxsize < N)) as [Hover|Hrange].
  { split.
    - intros s old kept c _ _ _. rewrite exec_refused by auto.
      split; [done|]. intros. by apply replay_not_found.
    - intros cs1 cs2 t _. rewrite exec_refused by auto.
      rewrite index_of_stream_init, map_size_empty. lia. }
  assert (Hmax : Z.of_nat (Z.to_nat N) ≤ Z.pos sys_maxsize) by lia.
  rewrite <- (Z2Nat.id N) by lia. set (n := Z.to_nat N).
  split.
  - intros s old kept c Hsplit Hkept Hc.
    destruct (tracks_exec n cs Hmax Hnd) as [_ Hidx].
    assert (Hgone : event_index (exec (init (Z.of_nat n)) cs) !! c.(c_uuid)
                    = None).
    { apply eq_None_not_Some. intros [e (c' & Hc' & Hid & ->)%Hidx].
      assert (Hcs : c ∈ on_stream s cs)
        by (rewrite Hsplit, elem_of_app; auto).
      pose proof Hcs as [Hs Hin]%list_elem_of_filter.
      pose proof (recent_elem_of _ _ _ _ Hc') as [Hin' _].
      assert (c' = c) as -> by (by apply (uuid_inj cs)).
      rewrite Hs in Hc'. unfold recent, lastn in Hc'.
      rewrite Hsplit, length_app in Hc'.
      replace (length old + length kept - n)%nat with (length old) in Hc'
        by lia.
      rewrite drop_app_length in Hc'.
      pose proof (on_stream_uuid_NoDup s cs Hnd) as Hnd'.
      apply NoDup_fmap_1 in Hnd'. rewrite Hsplit in Hnd'.
      apply NoDup_app in Hnd' as (_ & Hdisj & _). by apply (Hdisj c). }
    split; [done|]. intros. by apply replay_not_found.
  - intros cs1 cs2 t ->. rewrite fmap_app in Hnd.
    apply NoDup_app in Hnd as [Hnd _].
    pose proof (index_of_stream_size n cs1 t Hmax Hnd). lia.
Qed.

(** C3. In the store left by any run from a fresh store, with any bound, an
    id that no call of the run returned is not found: the result is [None],
    no exception, the callback is not used, and the result is not a stream
    id. *)
Theorem replay_unknown_id_not_found
    (N : Z) (cs : list call) (id : EventId)
    {Sink : Type} (send_callback : EventMessage → Sink → Sink) (sink : Sink) :
  id ∉ returned_ids (init N) cs →
  replay_events_after send_callback id sink (exec (init N) cs) =
    (exec (init N) cs, inr (None, sink)).
Proof.
  intros Hid. apply replay_not_found.
  destruct (event_index (exec (init N) cs) !! id) as [e|] eqn:He; [|done].
  destruct (index_returned (init N) cs id) as [[? H]|H]; [by rewrite He| |done].
  simpl in H. by rewrite lookup_empty in H.
Qed.

Lemma returned_ids_sublist st cs :
  returned_ids st cs `sublist_of` c_uuid <$> cs.
Proof.
  revert st. induction cs as [|c cs IH]; intros st; [done|].
  unfold returned_ids; simpl. unfold do_call at 1.
  destruct (store_event_cases c.(c_uuid) c.(c_stream) c.(c_message) st)
    as [[Hr _]|[(e & Hr & _)|(Hr & _)]]; rewrite Hr; simpl.
  - apply sublist_skip, IH.
  - apply sublist_cons, IH.
  - apply sublist_cons, IH.
Qed.

(** C8, as the code has it. With bound 0 every call on a store, the first
    included, stops with IndexError at [self.streams[stream_id][0]]; with a
    bound from 1 to sys.maxsize a call returns, on every store; with a bound
    above sys.maxsize every call stops with OverflowError in deque(). *)
Theorem store_event_raises_by_bound :
  (∀ cs u s m,
     (store_event u s m (exec (init 0) cs)).2 = inl IndexError) ∧
  (∀ st u s m,
     1 ≤ max_events_per_stream st ≤ Z.pos sys_maxsize →
     (store_event u s m st).2 = inr u) ∧
  (∀ N cs u s m,
     Z.pos sys_maxsize < N →
     (store_event u s m (exec (init N) cs)).2 = inl OverflowError).
Proof.
  split; [|split; [intros; by apply store_event_returns|]].
  - intros cs u s m.
    destruct (streams_track_exec 0 cs ltac:(lia)) as [Hn Hst]. simpl in *.
    specialize (Hst s). case_decide.
    + by rewrite store_event_new_zero.
    + erewrite store_event_full_empty; [done|exact Hst|..].
      * unfold log_of, recent. by rewrite lastn_0.
      * unfold deque_len, log_of, recent; simpl.
        by rewrite lastn_0, exec_keeps_bound.
  - intros N cs u s m HN. rewrite exec_refused by auto.
    rewrite store_event_new_refused by (simpl; auto). simpl.
    by rewrite bool_decide_eq_true_2 by auto.
Qed.

(** C9. When replay answers [None], the store is the one it was given and
    the sink is the one it was given; the answer does not depend on the
    callback, so a callback that counts its calls still shows 0. *)
Theorem replay_not_found_pure
    {Sink : Type} (send_callback : EventMessage → Sink → Sink)
    (id : EventId) (sink sink' : Sink) (st st' : InMemoryEventStore) :
  replay_events_after send_callback id sink st = (st', inr (None, sink')) →
  st' = st ∧ sink' = sink ∧
  ∀ (Sink2 : Type) (g : EventMessage → Sink2 → Sink2) (a : Sink2),
    replay_events_after g id a st = (st, inr (None, a)).
Proof.
  intros H. destruct (event_index st !! id) as [e|] eqn:He.
  - by rewrite (replay_found _ _ _ _ _ He) in H.
  - rewrite (replay_not_found _ _ _ _ He) in H. injection H as <- <-.
    repeat split. intros. by apply replay_not_found.
Qed.

(** C4. In a run from a fresh store that draws no identifier twice, take a
    call [c] on stream A and another stream B. Replay after the id of [c]
    hands the callback a list of entries that does not depend on the
    callback; each of them has stream id A and is the entry of a call on A,
    and none is the entry, or carries the id, of a call on B. The answer is
    A, or [None] with nothing delivered when the entry of [c] is gone. *)
Theorem replay_stays_in_stream
    (N : Z) (cs : list call) (A B : StreamId) (c : call) :
  NoDup (c_uuid <$> cs) → A ≠ B → c ∈ cs → c.(c_stream) = A →
  ∃ (r : option StreamId) (es : list EventEntry),
    (∀ (Sink : Type) (f : EventMessage → Sink → Sink) (sink : Sink),
       replay_events_after f c.(c_uuid) sink (exec (init N) cs) =
         (exec (init N) cs, inr (r, deliver f es sink))) ∧
    (r = Some A ∨ (r = None ∧ es = [])) ∧
    (∀ e, e ∈ es →
       e.(stream_id) = A ∧ e ∈ entry_of <$> on_stream A cs ∧
       ∀ b, b ∈ on_stream B cs →
         e ≠ entry_of b ∧ e.(event_id) ≠ b.(c_uuid)).
Proof.
  intros Hnd HAB Hc HA.
  destruct (event_index (exec (init N) cs) !! c.(c_uuid)) as [e0|] eqn:Hl.
  2:{ exists None, []. split; [|split; [by right|]].
      - intros. by apply replay_not_found.
      - intros e He. by apply elem_of_nil in He. }
  destruct (decide (N < 0 ∨ Z.pos sys_maxsize < N)) as [Hout|Hrange].
  { rewrite exec_refused in Hl by done. simpl in Hl.
    by rewrite lookup_empty in Hl. }
  assert (HN : 0 ≤ N) by lia.
  assert (Hmax : Z.of_nat (Z.to_nat N) ≤ Z.pos sys_maxsize) by lia.
  revert Hl. rewrite <- (Z2Nat.id N) by lia. set (n := Z.to_nat N). intros Hl.
  destruct (tracks_exec n cs Hmax Hnd) as [[_ Hst] Hidx].
  pose proof Hl as (c' & Hc' & Hid & ->)%Hidx.
  assert (c' = c) as ->.
  { apply recent_elem_of in Hc' as [Hc' _]. by apply (uuid_inj cs). }
  exists (Some A), (entries_after c.(c_uuid) (log_of n A cs)).
  split; [|split; [by left|]].
  - intros. rewrite (replay_found _ _ _ _ _ Hl); simpl. rewrite HA, Hst.
    rewrite decide_False; [done|].
    intros Hnil. assert (c ∈ on_stream A cs) as Hin
      by (by apply list_elem_of_filter).
    rewrite Hnil in Hin. by apply elem_of_nil in Hin.
  - intros e He%entries_after_subseteq. unfold log_of in He.
    apply list_elem_of_fmap in He as (a & -> & Ha).
    pose proof (recent_elem_of _ _ _ _ Ha) as [Hacs HaA].
    split; [done|]. split.
    + apply list_elem_of_fmap_2. by apply list_elem_of_filter.
    + intros b [HbB Hbcs]%list_elem_of_filter.
      assert (a.(c_uuid) ≠ b.(c_uuid)) as Hne.
      { intros Heq. apply (uuid_inj cs) in Heq; [|done..]. congruence. }
      split; [|done]. intros Heq. apply Hne.
      by apply (f_equal event_id) in Heq.
Qed.

Lemma log_length_exec n cs s :
  Z.of_nat n ≤ Z.pos sys_maxsize →
  log_length s (exec (init (Z.of_nat n)) cs) =
    (n `min` length (on_stream s cs))%nat.
Proof.
  intros Hmax.
  destruct (streams_track_exec n cs Hmax) as [_ Hst]. unfold log_length.
  rewrite Hst. case_decide as Hnil.
  - rewrite Hnil. simpl. lia.
  - simpl. unfold log_of, recent. by rewrite length_fmap, lastn_length.
Qed.

(** C6, as the code has it. On the store left by any run from a fresh
    store with a bound N that deque() accepts, from 0 to sys.maxsize, a call
    on a stream keeps the length of that stream's log when it is N and adds
    one to it otherwise; afterwards no log is longer than N. *)
Theorem store_event_log_length (N : Z) (cs : list call) (c : call) :
  0 ≤ N ≤ Z.pos sys_maxsize →
  log_length c.(c_stream) (do_call c (exec (init N) cs)).1 =
    (if decide (Z.of_nat (log_length c.(c_stream) (exec (init N) cs)) = N)
     then log_length c.(c_stream) (exec (init N) cs)
     else S (log_length c.(c_stream) (exec (init N) cs))) ∧
  ∀ s, Z.of_nat (log_length s (do_call c (exec (init N) cs)).1) ≤ N.
Proof.
  intros HN.
  assert (Hmax : Z.of_nat (Z.to_nat N) ≤ Z.pos sys_maxsize) by lia.
  rewrite <- (Z2Nat.id N) by lia. set (n := Z.to_nat N).
  rewrite <- exec_snoc. split.
  - rewrite !log_length_exec, on_stream_snoc, decide_True by done.
    rewrite length_app; simpl. case_decide; lia.
  - intros s. rewrite log_length_exec by done. lia.
Qed.

(** C10. In a run that draws no identifier twice, a call on one stream
    leaves the log of every other stream [t] and the index entries whose
    stream id is [t] as they were. *)
Theorem store_event_frame (N : Z) (cs : list call) (c : call) (t : StreamId) :
  NoDup (c_uuid <$> (cs ++ [c])) → t ≠ c.(c_stream) →
  streams (do_call c (exec (init N) cs)).1 !! t =
    streams (exec (init N) cs) !! t ∧
  index_of_stream t (do_call c (exec (init N) cs)).1 =
    index_of_stream t (exec (init N) cs).
Proof.
  intros Hnd Ht. destruct (decide (N < 0 ∨ Z.pos sys_maxsize < N)) as [Hout|Hrange].
  { rewrite exec_refused by done. unfold do_call.
    by rewrite store_event_new_refused. }
  assert (HN : 0 ≤ N) by lia.
  assert (Hmax : Z.of_nat (Z.to_nat N) ≤ Z.pos sys_maxsize) by lia.
  rewrite <- (Z2Nat.id N) by lia. set (n := Z.to_nat N).
  rewrite <- exec_snoc.
  assert (Hnd' : NoDup (c_uuid <$> cs)).
  { rewrite fmap_app in Hnd. by apply NoDup_app in Hnd as [? _]. }
  split.
  - destruct (streams_track_exec n cs Hmax) as [_ Hst].
    destruct (streams_track_exec n (cs ++ [c]) Hmax) as [_ Hst'].
    rewrite Hst, Hst', log_of_snoc, on_stream_snoc.
    rewrite !(decide_False (P := c.(c_stream) = t)) by done.
    by rewrite app_nil_r.
  - rewrite !index_of_stream_tracked by done.
    rewrite recent_snoc. by rewrite decide_False.
Qed.

(** ** Further properties of the store *)

(** X1. In a run that draws no identifier twice, under a bound N that is at
    most sys.maxsize, replay after the id of a call that is among the last
    N calls on its stream [s] returns [s] and hands the callback the entries
    of all later calls on [s], in order, however many older entries the
    stream has lost. *)
Theorem replay_after_retained
    (N : Z) (cs : list call) (s : StreamId) (pre post : list call) (c : call)
    {Sink : Type} (send_callback : EventMessage → Sink → Sink) (sink : Sink) :
  NoDup (c_uuid <$> cs) →
  on_stream s cs = pre ++ c :: post →
  Z.of_nat (length (c :: post)) ≤ N →
  N ≤ Z.pos sys_maxsize →
  replay_events_after send_callback c.(c_uuid) sink (exec (init N) cs) =
    (exec (init N) cs,
     inr (Some s, deliver send_callback (entry_of <$> post) sink)).
Proof.
  intros Hnd Hsplit Hlen Hrange. simpl in Hlen.
  assert (Hmax : Z.of_nat (Z.to_nat N) ≤ Z.pos sys_maxsize) by lia.
  assert (Hc : c ∈ on_stream s cs)
    by (rewrite Hsplit, elem_of_app, elem_of_cons; auto).
  pose proof Hc as [Hcs Hin]%list_elem_of_filter.
  rewrite <- (Z2Nat.id N) by lia. set (n := Z.to_nat N).
  destruct (tracks_exec n cs Hmax Hnd) as [[_ Hst] Hidx].
  set (k := (length (pre ++ c :: post) - n)%nat).
  assert (Hk : (k ≤ length pre)%nat)
    by (unfold k; rewrite length_app; simpl; lia).
  assert (Hrecent : recent n s cs = drop k pre ++ c :: post).
  { unfold recent, lastn. rewrite Hsplit. fold k. by rewrite drop_app_le. }
  assert (Hl : event_index (exec (init (Z.of_nat n)) cs) !! c.(c_uuid)
               = Some (entry_of c)).
  { apply Hidx. exists c. rewrite Hcs, Hrecent.
    split; [|done]. rewrite elem_of_app, elem_of_cons. auto. }
  rewrite (replay_found _ _ _ _ _ Hl); simpl. rewrite Hcs, Hst.
  rewrite decide_False by (rewrite Hsplit; by destruct pre).
  simpl. unfold log_of. rewrite Hrecent, fmap_app, fmap_cons.
  rewrite entries_after_split; [done..|].
  rewrite entry_of_event_id.
  pose proof (on_stream_uuid_NoDup s cs Hnd) as Hnd'.
  rewrite Hsplit, fmap_app, fmap_cons in Hnd'.
  apply NoDup_app in Hnd' as (_ & Hpre & _).
  intros Hp. apply (Hpre c.(c_uuid)); [|apply list_elem_of_here].
  apply list_elem_of_fmap in Hp as (x & -> & Hx).
  apply list_elem_of_fmap_2. by apply (subseteq_drop k pre).
Qed.

(** X2. With a bound from 1 to sys.maxsize, replay after the id that a call
    has just returned finds it: the answer is the stream of the call and the
    callback is not used, as nothing was stored after it. *)
Theorem replay_after_newest
    (N : Z) (cs : list call) (c : call)
    {Sink : Type} (send_callback : EventMessage → Sink → Sink) (sink : Sink) :
  1 ≤ N ≤ Z.pos sys_maxsize → NoDup (c_uuid <$> (cs ++ [c])) →
  replay_events_after send_callback c.(c_uuid) sink
      (do_call c (exec (init N) cs)).1 =
    ((do_call c (exec (init N) cs)).1, inr (Some c.(c_stream), sink)).
Proof.
  intros HN Hnd. rewrite <- exec_snoc.
  apply (replay_after_retained N (cs ++ [c]) c.(c_stream)
           (on_stream c.(c_stream) cs) [] c send_callback sink Hnd).
  - by rewrite on_stream_snoc, decide_True.
  - simpl. lia.
  - lia.
Qed.

(** X3. The index and the logs agree. In the store left by a run that draws
    no identifier twice, an id maps to an entry exactly when that entry
    carries the id and sits in the log of its own stream; and every log
    holds entries of its own stream only, with pairwise distinct ids. *)
Theorem index_agrees_with_logs (N : Z) (cs : list call) :
  NoDup (c_uuid <$> cs) →
  (∀ id e,
     event_index (exec (init N) cs) !! id = Some e ↔
     e.(event_id) = id ∧
     ∃ d, streams (exec (init N) cs) !! e.(stream_id) = Some d ∧ e ∈ items d) ∧
  (∀ s d,
     streams (exec (init N) cs) !! s = Some d →
     NoDup (event_id <$> items d) ∧ Forall (λ e, e.(stream_id) = s) (items d)).
Proof.
  intros Hnd. destruct (decide (N < 0 ∨ Z.pos sys_maxsize < N)) as [Hout|Hrange].
  { rewrite exec_refused by done. simpl. split.
    - intros id e. rewrite lookup_empty. split; [done|].
      intros (_ & d & Hd & _). by rewrite lookup_empty in Hd.
    - intros s d Hd. by rewrite lookup_empty in Hd. }
  assert (HN : 0 ≤ N) by lia.
  assert (Hmax : Z.of_nat (Z.to_nat N) ≤ Z.pos sys_maxsize) by lia.
  rewrite <- (Z2Nat.id N) by lia. set (n := Z.to_nat N).
  destruct (tracks_exec n cs Hmax Hnd) as [[_ Hst] Hidx].
  unfold index_tracks in Hidx. split.
  - intros id e. rewrite Hidx. split.
    + intros (c & Hc & <- & ->). split; [done|]. simpl.
      exists (mkDeque (Z.of_nat n) (log_of n c.(c_stream) cs)).
      split; [|by apply list_elem_of_fmap_2].
      rewrite Hst, decide_False; [done|].
      intros Hnil. apply lastn_elem_of in Hc. rewrite Hnil in Hc.
      by apply elem_of_nil in Hc.
    + intros (<- & d & Hd & He). rewrite Hst in Hd.
      case_decide; [done|]. injection Hd as <-. simpl in He.
      apply list_elem_of_fmap in He as (c & -> & Hc). simpl in Hc.
      exists c. done.
  - intros s d Hd. rewrite Hst in Hd. case_decide; [done|].
    injection Hd as <-. simpl. split.
    + unfold log_of. rewrite entry_of_event_id. by apply recent_uuid_NoDup.
    + apply Forall_forall. intros e (c & -> & Hc)%list_elem_of_fmap.
      by apply recent_elem_of in Hc as [_ Hc].
Qed.



(** X5. A call fails only under a bound of 0 or less or above sys.maxsize,
    and never with KeyError; a call that fails leaves the index and every
    log that existed as they were. *)
Theorem store_event_failure_effect u s m st e :
  (store_event u s m st).2 = inl e →
  (max_events_per_stream st ≤ 0 ∨
   Z.pos sys_maxsize < max_events_per_stream st) ∧
  e ≠ KeyError ∧
  event_index (store_event u s m st).1 = event_index st ∧
  ∀ t d, streams st !! t = Some d → streams (store_event u s m st).1 !! t = Some d.
Proof.
  destruct (streams st !! s) as [d0|] eqn:Hs.
  - destruct (decide (deque_len d0 = max_events_per_stream st)) as [Hl|Hl].
    + destruct (items d0) as [|o l] eqn:Hi.
      * rewrite (store_event_full_empty u s m st d0) by done.
        simpl. intros [= <-]. unfold deque_len in Hl. rewrite Hi in Hl.
        simpl in Hl. repeat split; (done || lia).
      * by rewrite (store_event_full u s m st d0 o l).
    + by rewrite (store_event_room u s m st d0).
  - destruct (decide (max_events_per_stream st < 0 ∨
                      Z.pos sys_maxsize < max_events_per_stream st))
      as [Hout|Hrange].
    + rewrite store_event_new_refused by done. simpl. intros [= <-].
      split; [lia|]. split; [by case_bool_decide|]. done.
    + destruct (decide (max_events_per_stream st = 0)) as [Hn|Hn].
      * rewrite store_event_new_zero by done. simpl. intros [= <-].
        split; [lia|]. split; [done|]. split; [done|].
        intros t d Ht. rewrite lookup_insert_ne; [done|]. congruence.
      * by rewrite store_event_new by (done || lia).
Qed.

(** X6. On every store, a call on stream [s] keeps every stream that had a
    log, with the same bound on its deque, and leaves the logs of the other
    streams as they were. *)
Theorem store_event_keeps_streams u s m st t d :
  streams st !! t = Some d →
  ∃ d', streams (store_event u s m st).1 !! t = Some d' ∧
        maxlen d' = maxlen d ∧ (t ≠ s → d' = d).
Proof.
  intros Ht.
  assert (Hins : ∀ d1, (t = s → maxlen d1 = maxlen d) →
            ∃ d', <[s := d1]> (streams st) !! t = Some d' ∧
                  maxlen d' = maxlen d ∧ (t ≠ s → d' = d)).
  { intros d1 Hd1. destruct (decide (t = s)) as [->|Hne].
    - exists d1. rewrite lookup_insert_eq. split; [done|]. split; [auto|done].
    - exists d. rewrite lookup_insert_ne by done. split; [done|]. split; done. }
  destruct (streams st !! s) as [d0|] eqn:Hs.
  - assert (Hsame : t = s → d0 = d) by (intros ->; congruence).
    destruct (decide (deque_len d0 = max_events_per_stream st)) as [Hl|Hl].
    + destruct (items d0) as [|o l] eqn:Hi.
      * rewrite (store_event_full_empty u s m st d0) by done. simpl. eauto.
      * rewrite (store_event_full u s m st d0 o l) by done. simpl.
        apply Hins. intros ->%Hsame. done.
    + rewrite (store_event_room u s m st d0) by done. simpl.
      apply Hins. intros ->%Hsame. done.
  - assert (Hne : t ≠ s) by congruence.
    destruct (decide (max_events_per_stream st < 0 ∨
                      Z.pos sys_maxsize < max_events_per_stream st))
      as [Hout|Hrange].
    + rewrite store_event_new_refused by done. simpl. eauto.
    + destruct (decide (max_events_per_stream st = 0)) as [Hn|Hn].
      * rewrite store_event_new_zero by done. simpl. by apply Hins.
      * rewrite store_event_new by (done || lia). simpl. by apply Hins.
Qed.

(** X7. With a bound from 1 to sys.maxsize, after any run, the entry of
    the call just made is the last one of its stream's log and is what the index
    holds under the returned id, whatever ids were drawn before. *)
Theorem store_event_newest_entry (N : Z) (cs : list call) (c : call) :
  1 ≤ N ≤ Z.pos sys_maxsize →
  event_index (do_call c (exec (init N) cs)).1 !! c.(c_uuid)
    = Some (entry_of c) ∧
  ∃ d, streams (do_call c (exec (init N) cs)).1 !! c.(c_stream) = Some d ∧
       last (items d) = Some (entry_of c).
Proof.
  intros HN.
  assert (Hmax : Z.of_nat (Z.to_nat N) ≤ Z.pos sys_maxsize) by lia.
  rewrite <- (Z2Nat.id N) by lia. set (n := Z.to_nat N).
  rewrite (do_call_tracked n cs _ c Hmax (streams_track_exec n cs Hmax)).
  rewrite decide_False by lia. simpl. split; [by rewrite lookup_insert_eq|].
  eexists. split; [by rewrite lookup_insert_eq|]. simpl.
  rewrite log_of_snoc, decide_True by done. rewrite lastn_snoc.
  case_decide as Hfull; [|apply last_snoc].
  assert (Hlen : length (lastn n (entry_of <$> on_stream c.(c_stream) cs))
                 = n) by (rewrite lastn_length; lia).
  destruct (lastn n (entry_of <$> on_stream c.(c_stream) cs)) as [|o l];
    simpl in *; [lia|]. rewrite drop_0. apply last_snoc.
Qed.

Lemma size_list_to_set_le (l : list string) :
  (size (list_to_set l : gset string) ≤ length l)%nat.
Proof.
  induction l as [|x l IH]; simpl.
  - done.
  - rewrite size_union_alt, size_singleton.
    assert (Hsub : list_to_set l ∖ {[x]} ⊆ (list_to_set l : gset string))
      by (by intros y [Hy _]%elem_of_difference).
    apply subseteq_size in Hsub. lia.
Qed.

Lemma length_bind_le {A B} (f : A → list B) (n : nat) (l : list A) :
  Forall (λ x, (length (f x) ≤ n)%nat) l →
  (length (l ≫= f) ≤ n * length l)%nat.
Proof.
  induction 1 as [|x l Hx _ IH].
  - simpl. lia.
  - rewrite bind_cons, length_app. simpl. lia.
Qed.

(** X8. Memory stays bounded: in the store left by a run that draws no
    identifier twice, under a bound N of 0 or more, the index holds at most
    N entries per stream that has a log. *)
Theorem index_size_bounded (N : Z) (cs : list call) :
  0 ≤ N → NoDup (c_uuid <$> cs) →
  Z.of_nat (size (event_index (exec (init N) cs))) ≤
    N * Z.of_nat (size (streams (exec (init N) cs))).
Proof.
  intros HN Hnd.
  destruct (decide (Z.pos sys_maxsize < N)) as [Hover|Hrange].
  { rewrite exec_refused by auto. simpl. rewrite !map_size_empty. lia. }
  assert (Hmax : Z.of_nat (Z.to_nat N) ≤ Z.pos sys_maxsize) by lia.
  destruct (index_agrees_with_logs N cs Hnd) as [Hagree _].
  revert Hagree. rewrite <- (Z2Nat.id N) by lia. set (n := Z.to_nat N).
  set (st := exec (init (Z.of_nat n)) cs). intros Hagree.
  destruct (streams_track_exec n cs Hmax) as [_ Hst]. fold st in Hst.
  set (L := map_to_list (streams st) ≫= (λ sd, items sd.2)).
  assert (Hdom : dom (event_index st) ⊆ list_to_set (event_id <$> L)).
  { intros id [e He]%elem_of_dom.
    apply Hagree in He as (<- & d & Hd & He).
    apply elem_of_list_to_set, list_elem_of_fmap_2, list_elem_of_bind.
    exists (e.(stream_id), d). split; [done|]. by apply elem_of_map_to_list. }
  apply subseteq_size in Hdom. rewrite size_dom in Hdom.
  pose proof (size_list_to_set_le (event_id <$> L)) as Hset.
  rewrite length_fmap in Hset.
  assert (HL : (length L ≤ n * length (map_to_list (streams st)))%nat).
  { apply length_bind_le, Forall_forall. intros [s d] Hsd%elem_of_map_to_list.
    rewrite Hst in Hsd. case_decide; [done|]. injection Hsd as <-. simpl.
    unfold log_of, recent. rewrite length_fmap, lastn_length. lia. }
  rewrite length_map_to_list in HL. nia.
Qed.

End EventStore.

Arguments EventEntry : clear implicits.
Arguments EventMessage : clear implicits.
Arguments deque : clear implicits.
Arguments InMemoryEventStore : clear implicits.
Arguments call : clear implicits.

(** * The theorems at concrete runs

    Payloads are strings here, and sys.maxsize is that of a 64-bit
    interpreter. *)

Local Abbreviation single := (run_single "m1" "m2" "m3").
Local Abbreviation mixed := (run_mixed "m1" "x2" "m3" "x4").
Local Abbreviation c1 := (mkCall "e1" "S" "m1").
Local Abbreviation c2 := (mkCall "e2" "S" "m2").
Local Abbreviation c3 := (mkCall "e3" "S" "m3").
Local Abbreviation run := (exec maxsize64).
Local Abbreviation call_on := (do_call maxsize64).

(** The scenario of the specification: bound 2, three stores on one stream;
    the first id is gone and replay after the second delivers the third. *)
Example scenario_eviction :
  (replay_events_after recording "e1" [] (run (init 2) single)).2
    = inr (None, []) ∧
  (replay_events_after recording "e2" [] (run (init 2) single)).2
    = inr (Some "S", [mkEventMessage "m3" "e3"]).
Proof. split; by vm_compute. Qed.

Lemma replay_after_returns_suffix_witness :
  replay_events_after recording "e1" [] (run (init 3) mixed) =
    (run (init 3) mixed, inr (Some "S", [mkEventMessage "m3" "e3"])).
Proof.
  apply (replay_after_returns_suffix maxsize64 3 mixed "S" [] [c3] c1
           recording []).
  - by_evaluation.
  - reflexivity.
  - vm_compute. discriminate.
  - vm_compute. apply list_elem_of_here.
Defined.

Lemma evicted_ids_not_found_index_bounded_witness :
  event_index (run (init 2) single) !! "e1" = None ∧
  replay_events_after recording "e1" [] (run (init 2) single) =
    (run (init 2) single, inr (None, [])) ∧
  Z.of_nat (size (index_of_stream "S" (run (init 2) single))) ≤ 2.
Proof.
  destruct (evicted_ids_not_found_index_bounded maxsize64 2 single)
    as [Hold Hsize].
  - lia.
  - by_evaluation.
  - destruct (Hold "S" [c1] [c2; c3] c1) as [Hgone Hreplay].
    + reflexivity.
    + reflexivity.
    + apply list_elem_of_here.
    + split; [exact Hgone|]. split; [apply Hreplay|].
      apply (Hsize single [] "S"). reflexivity.
Defined.

Lemma replay_unknown_id_not_found_witness :
  replay_events_after recording "e9" [] (run (init 2) single) =
    (run (init 2) single, inr (None, [])).
Proof.
  apply (replay_unknown_id_not_found maxsize64 2 single "e9" recording []).
  by_evaluation.
Defined.

Lemma replay_stays_in_stream_witness :
  ∃ (r : option string) (es : list (EventEntry string)),
    (∀ (Sink : Type) (f : EventMessage string → Sink → Sink) (sink : Sink),
       replay_events_after f "e1" sink (run (init 2) mixed) =
         (run (init 2) mixed, inr (r, deliver f es sink))) ∧
    (r = Some "S" ∨ (r = None ∧ es = [])) ∧
    (∀ e, e ∈ es →
       e.(stream_id) = "S" ∧ e ∈ entry_of <$> on_stream "S" mixed ∧
       ∀ b, b ∈ on_stream "T" mixed →
         e ≠ entry_of b ∧ e.(event_id) ≠ b.(c_uuid)).
Proof.
  apply (replay_stays_in_stream maxsize64 2 mixed "S" "T" c1).
  - by_evaluation.
  - discriminate.
  - apply list_elem_of_here.
  - reflexivity.
Defined.

(** C6 as it was stated fails for a bound above sys.maxsize: the log of the
    stream is not at the bound, and the call, which stops in deque(), does
    not make it longer. *)
Lemma store_event_log_length_counterexample :
  ¬ (log_length "S" (call_on c1 (init (2 ^ 63))).1 =
       if decide (Z.of_nat (log_length "S" (init (2 ^ 63)
                                             : InMemoryEventStore string))
                  = 2 ^ 63)
       then log_length "S" (init (2 ^ 63) : InMemoryEventStore string)
       else S (log_length "S" (init (2 ^ 63) : InMemoryEventStore string))).
Proof. vm_compute. discriminate. Qed.

Lemma store_event_log_length_witness :
  log_length "S" (call_on (mkCall "e4" "S" "m4") (run (init 2) single)).1 =
    (if decide (Z.of_nat (log_length "S" (run (init 2) single)) = 2)
     then log_length "S" (run (init 2) single)
     else S (log_length "S" (run (init 2) single))) ∧
  ∀ s, Z.of_nat
         (log_length s (call_on (mkCall "e4" "S" "m4") (run (init 2) single)).1)
       ≤ 2.
Proof.
  apply (store_event_log_length maxsize64 2 single (mkCall "e4" "S" "m4")).
  vm_compute. split; discriminate.
Defined.

(** C8 as it was stated fails for a bound above sys.maxsize: the bound is at
    least 1 and the call raises. *)
Lemma store_event_raises_counterexample :
  1 ≤ 2 ^ 63 ∧
  (store_event maxsize64 "e1" "S" "m1" (init (2 ^ 63))).2 = inl OverflowError.
Proof. split; by vm_compute. Qed.

Lemma store_event_raises_by_bound_witness :
  (store_event maxsize64 "e1" "S" "m1" (init 0)).2 = inl IndexError ∧
  (store_event maxsize64 "e1" "S" "m1" (init 1)).2 = inr "e1" ∧
  (store_event maxsize64 "e1" "S" "m1" (init (2 ^ 63))).2 = inl OverflowError.
Proof.
  destruct (@store_event_raises_by_bound string maxsize64)
    as (Hzero & Hpos & Hover).
  split; [|split].
  - apply (Hzero []).
  - apply (Hpos (init 1)). vm_compute. split; discriminate.
  - apply (Hover (2 ^ 63) []). reflexivity.
Defined.

Lemma replay_not_found_pure_witness :
  run (init 2) single = run (init 2) single ∧
  ([] : list (EventMessage string)) = [] ∧
  ∀ (Sink2 : Type) (g : EventMessage string → Sink2 → Sink2) (a : Sink2),
    replay_events_after g "e1" a (run (init 2) single) =
      (run (init 2) single, inr (None, a)).
Proof.
  apply (replay_not_found_pure recording "e1" [] []
           (run (init 2) single) (run (init 2) single)).
  vm_compute. reflexivity.
Defined.

Lemma store_event_frame_witness :
  streams (call_on (mkCall "e4" "T" "x4") (run (init 2) single)).1 !! "S" =
    streams (run (init 2) single) !! "S" ∧
  index_of_stream "S" (call_on (mkCall "e4" "T" "x4") (run (init 2) single)).1 =
    index_of_stream "S" (run (init 2) single).
Proof.
  apply (store_event_frame maxsize64 2 single (mkCall "e4" "T" "x4") "S").
  - by_evaluation.
  - discriminate.
Defined.

Lemma replay_after_retained_witness :
  replay_events_after recording "e2" [] (run (init 2) single) =
    (run (init 2) single, inr (Some "S", [mkEventMessage "m3" "e3"])).
Proof.
  apply (replay_after_retained maxsize64 2 single "S" [c1] [c3] c2
           recording []).
  - by_evaluation.
  - reflexivity.
  - simpl. lia.
  - vm_compute. discriminate.
Defined.

Lemma replay_after_newest_witness :
  replay_events_after recording "e4" []
      (call_on (mkCall "e4" "S" "m4") (run (init 2) single)).1 =
    ((call_on (mkCall "e4" "S" "m4") (run (init 2) single)).1,
     inr (Some "S", [])).
Proof.
  apply (replay_after_newest maxsize64 2 single (mkCall "e4" "S" "m4")
           recording []).
  - vm_compute. split; discriminate.
  - by_evaluation.
Defined.

Lemma index_agrees_with_logs_witness :
  (∀ id (e : EventEntry string),
     event_index (run (init 2) mixed) !! id = Some e ↔
     e.(event_id) = id ∧
     ∃ d, streams (run (init 2) mixed) !! e.(stream_id) = Some d ∧
          e ∈ items d) ∧
  (∀ s d,
     streams (run (init 2) mixed) !! s = Some d →
     NoDup (event_id <$> items d) ∧ Forall (λ e, e.(stream_id) = s) (items d)).
Proof. apply (index_agrees_with_logs maxsize64 2 mixed). by_evaluation. Defined.

Lemma store_event_failure_effect_witness :
  ((0 : Z) ≤ 0 ∨ Z.pos maxsize64 < 0) ∧ IndexError ≠ KeyError ∧
  event_index (store_event maxsize64 "e1" "S" "m1" (init 0)).1
    = event_index (init 0) ∧
  ∀ t d, streams (init 0) !! t = Some d →
         streams (store_event maxsize64 "e1" "S" "m1" (init 0)).1 !! t = Some d.
Proof.
  apply (store_event_failure_effect maxsize64 "e1" "S" "m1" (init 0) IndexError).
  reflexivity.
Defined.

Lemma store_event_keeps_streams_witness :
  ∃ d', streams (store_event maxsize64 "e4" "T" "x4" (run (init 2) single)).1
          !! "S" = Some d' ∧
        maxlen d' = 2 ∧
        ("S" ≠ "T" →
         d' = mkDeque 2 [mkEventEntry "e2" "S" "m2"; mkEventEntry "e3" "S" "m3"]).
Proof.
  apply (store_event_keeps_streams maxsize64 "e4" "T" "x4"
           (run (init 2) single) "S"
           (mkDeque 2 [mkEventEntry "e2" "S" "m2"; mkEventEntry "e3" "S" "m3"])).
  vm_compute. reflexivity.
Defined.

Lemma store_event_newest_entry_witness :
  event_index (call_on (mkCall "e1" "S" "again") (run (init 2) single)).1 !! "e1"
    = Some (mkEventEntry "e1" "S" "again") ∧
  ∃ d, streams (call_on (mkCall "e1" "S" "again") (run (init 2) single)).1 !! "S"
         = Some d ∧
       last (items d) = Some (mkEventEntry "e1" "S" "again").
Proof.
  apply (store_event_newest_entry maxsize64 2 single (mkCall "e1" "S" "again")).
  vm_compute. split; discriminate.
Defined.

Lemma index_size_bounded_witness :
  Z.of_nat (size (event_index (run (init 2) mixed))) ≤
    2 * Z.of_nat (size (streams (run (init 2) mixed))).
Proof.
  apply (index_size_bounded maxsize64 2 mixed).
  - lia.
  - by_evaluation.
Defined.

(** * The tools *)

Example call_tool_add_example :
  (call_tool sample_runtime "t" "add" [("a", PInt 2); ("b", PInt 40)]).2
    = inr [mkTextContent "text" "42"] ∧
  (call_tool sample_runtime "t" "add" [("a", PInt (-7))]).2
    = inr [mkTextContent "text" "-7"] ∧
  (call_tool sample_runtime "t" "echo" [("message", PStr "hi")]).2
    = inr [mkTextContent "text" "Echo: hi"] ∧
  (call_tool sample_runtime "t" "nope" []).2
    = inr [mkTextContent "text" "Error: Unknown tool 'nope'"].
Proof. repeat split; by vm_compute. Qed.

Lemma format_all_printable (rt : PyRuntime) (vs : list (py_value (Other rt))) :
  Forall (λ v, printable rt v) vs ↔ format_all rt vs = inr tt.
Proof.
  induction vs as [|v vs IH]; simpl; [done|].
  rewrite Forall_cons, IH. unfold printable.
  destruct (py_str rt v); simpl; [|tauto].
  split; [by intros [[] _]|done].
Qed.

Lemma format_all_unprintable (rt : PyRuntime) (vs : list (py_value (Other rt))) :
  ¬ Forall (λ v, printable rt v) vs → ∃ e, format_all rt vs = inl e.
Proof.
  intros Hvs. destruct (format_all rt vs) as [e|[]] eqn:Hf; [eauto|].
  by apply format_all_printable in Hf.
Qed.

Lemma dict_get_elem {V} (k : string) (d : py_dict V) (v : V) :
  dict_get k d = Some v → v ∈ d.*2.
Proof.
  induction d as [|[k' v'] d IH]; simpl; [done|].
  case_bool_decide.
  - intros [= ->]. apply list_elem_of_here.
  - intros Hd. by apply list_elem_of_further, IH.
Qed.

Lemma printable_argument (rt : PyRuntime)
    (d : py_dict (py_value (Other rt))) (k : string) (dflt : py_value (Other rt)) :
  Forall (λ v, printable rt v) d.*2 → printable rt dflt →
  printable rt (default dflt (dict_get k d)).
Proof.
  intros Hd Hdflt. destruct (dict_get k d) as [v|] eqn:Hk; simpl; [|done].
  rewrite Forall_forall in Hd. by apply Hd, (dict_get_elem k).
Qed.

Lemma printable_str (rt : PyRuntime) (v : py_value (Other rt)) :
  printable rt v → ∃ shown, py_str rt v = inr shown.
Proof. unfold printable. destruct (py_str rt v); [done|eauto]. Qed.

Lemma str_int_within (rt : PyRuntime) (n : Z) :
  (int_max_str_digits rt = 0 ∨ int_digits n ≤ int_max_str_digits rt)%nat →
  str_int rt n = inr (pretty n).
Proof. intros H. unfold str_int. by rewrite bool_decide_eq_false_2 by lia. Qed.

Lemma str_int_zero (rt : PyRuntime) : str_int rt 0 = inr "0".
Proof.
  apply str_int_within. replace (int_digits 0) with 1%nat by reflexivity. lia.
Qed.

Lemma dict_get_set_ne {V} (k k' : string) (v : V) (d : py_dict V) :
  k' ≠ k → dict_get k' (dict_set k v d) = dict_get k' d.
Proof.
  intros Hne. induction d as [|[k0 v0] d IH]; simpl.
  - by rewrite bool_decide_eq_false_2.
  - destruct (decide (k0 = k)) as [->|Hk0].
    + rewrite (bool_decide_eq_true_2 (k = k)) by done. simpl.
      by rewrite !bool_decide_eq_false_2.
    + rewrite (bool_decide_eq_false_2 (k0 = k)) by done. simpl.
      by rewrite IH.
Qed.

Lemma format_all_dict_set (rt : PyRuntime)
    (k : string) (v : py_value (Other rt)) (d : py_dict (py_value (Other rt))) :
  printable rt v →
  (∀ old, dict_get k d = Some old → printable rt old) →
  format_all rt (dict_set k v d).*2 = format_all rt d.*2.
Proof.
  intros Hv. induction d as [|[k0 v0] d IH]; simpl; intros Hold.
  - apply printable_str in Hv as [shown ->]. done.
  - destruct (decide (k0 = k)) as [->|Hk0].
    + rewrite (bool_decide_eq_true_2 (k = k)) in * by done. simpl.
      apply printable_str in Hv as [shown ->].
      destruct (printable_str rt v0 (Hold v0 eq_refl)) as [shown0 ->]. done.
    + rewrite (bool_decide_eq_false_2 (k0 = k)) in * by done. simpl.
      destruct (py_str rt v0); [done|]. by apply IH.
Qed.

(** X9. A tool name that list_tools does not advertise is answered, for any
    arguments that can be printed, with the one text "Error: Unknown tool
    '<name>'" and without an exception, after the one log message that names
    the tool. *)
Theorem call_tool_unknown (rt : PyRuntime) (now name : string)
    (arguments : py_dict (py_value (Other rt))) :
  name ∉ tool_name <$> list_tools →
  Forall (λ v, printable rt v) arguments.*2 →
  call_tool rt now name arguments =
    ([mkLogMessage "info" ("Executing tool '" +:+ name +:+ "'") "tool_executor"],
     inr [mkTextContent "text" ("Error: Unknown tool '" +:+ name +:+ "'")]).
Proof.
  intros Hname Hargs. simpl in Hname.
  rewrite !not_elem_of_cons in Hname. destruct Hname as (H1 & H2 & H3 & _).
  apply format_all_printable in Hargs.
  unfold call_tool. rewrite Hargs. by rewrite !bool_decide_eq_false_2.
Qed.

(** X10. add on integers: when every argument can be printed, [a] and [b]
    are integers or absent (an absent one counts as 0) and their sum is
    within the limit on printed digits, the tool sends its log message and
    returns the one text that is the sum in decimal. *)
Theorem call_tool_add_integers (rt : PyRuntime) (now : string)
    (arguments : py_dict (py_value (Other rt))) (x y : Z) :
  Forall (λ v, printable rt v) arguments.*2 →
  default (PInt 0) (dict_get "a" arguments) = PInt x →
  default (PInt 0) (dict_get "b" arguments) = PInt y →
  (int_max_str_digits rt = 0 ∨ int_digits (x + y) ≤ int_max_str_digits rt)%nat →
  call_tool rt now "add" arguments =
    ([mkLogMessage "info" "Executing tool 'add'" "tool_executor"],
     inr [mkTextContent "text" (pretty (x + y))]).
Proof.
  intros Hargs Ha Hb Hlimit.
  assert (H0 : printable rt (PInt 0)).
  { unfold printable. simpl. by rewrite str_int_zero. }
  pose proof (printable_argument rt arguments "a" (PInt 0) Hargs H0) as Hpa.
  pose proof (printable_argument rt arguments "b" (PInt 0) Hargs H0) as Hpb.
  rewrite Ha in Hpa. rewrite Hb in Hpb.
  apply printable_str in Hpa as [sa Hsa]. apply printable_str in Hpb as [sb Hsb].
  apply format_all_printable in Hargs.
  unfold call_tool. rewrite Hargs. simpl. rewrite Ha, Hb. simpl in *.
  by rewrite Hsa, Hsb, str_int_within.
Qed.

(** X11. add does not check that its arguments are integers: when every
    argument can be printed, two strings are concatenated and returned, and
    a string with an integer (given or the default 0) raises TypeError out
    of call_tool after the log message was sent. *)
Theorem call_tool_add_unchecked (rt : PyRuntime) (now : string)
    (arguments : py_dict (py_value (Other rt))) :
  Forall (λ v, printable rt v) arguments.*2 →
  (∀ sa sb,
     default (PInt 0) (dict_get "a" arguments) = PStr sa →
     default (PInt 0) (dict_get "b" arguments) = PStr sb →
     call_tool rt now "add" arguments =
       ([mkLogMessage "info" "Executing tool 'add'" "tool_executor"],
        inr [mkTextContent "text" (sa +:+ sb)])) ∧
  (∀ sa y,
     default (PInt 0) (dict_get "a" arguments) = PStr sa →
     default (PInt 0) (dict_get "b" arguments) = PInt y →
     call_tool rt now "add" arguments =
       ([mkLogMessage "info" "Executing tool 'add'" "tool_executor"],
        inl TypeError)) ∧
  (∀ x sb,
     default (PInt 0) (dict_get "a" arguments) = PInt x →
     default (PInt 0) (dict_get "b" arguments) = PStr sb →
     call_tool rt now "add" arguments =
       ([mkLogMessage "info" "Executing tool 'add'" "tool_executor"],
        inl TypeError)).
Proof.
  intros Hargs. apply format_all_printable in Hargs.
  repeat split; intros ? ? Ha Hb; unfold call_tool; rewrite Hargs; simpl;
    by rewrite Ha, Hb.
Qed.

(** X12. call_tool reads only the arguments its tool declares: for a tool
    of list_tools, setting an argument that is not among the properties of
    the tool's input schema to a value that can be printed changes nothing
    of the call, provided the value it replaces, if any, could be printed
    too. *)
Theorem call_tool_reads_declared_only (rt : PyRuntime) (now : string)
    (t : Tool) (arguments : py_dict (py_value (Other rt)))
    (k : string) (v : py_value (Other rt)) :
  t ∈ list_tools →
  k ∉ (schema_properties (tool_inputSchema t)).*1 →
  printable rt v →
  (∀ old, dict_get k arguments = Some old → printable rt old) →
  call_tool rt now (tool_name t) (dict_set k v arguments) =
    call_tool rt now (tool_name t) arguments.
Proof.
  intros Ht Hk Hv Hold. unfold list_tools in Ht.
  rewrite !elem_of_cons in Ht.
  unfold call_tool. rewrite format_all_dict_set by done.
  destruct (format_all rt arguments.*2); [done|]. f_equal.
  destruct Ht as [->|[->|[->|Ht]]]; simpl in *.
  - apply not_elem_of_cons in Hk as [Hk _].
    by rewrite dict_get_set_ne.
  - apply not_elem_of_cons in Hk as [Ha Hk].
    apply not_elem_of_cons in Hk as [Hb _].
    by rewrite !dict_get_set_ne.
  - done.
  - by apply elem_of_nil in Ht.
Qed.

(** X13. Every tool of list_tools answers a call without arguments: the
    result is one text and no exception, also for add, whose schema lists
    [a] and [b] as required. *)
Theorem call_tool_without_arguments (rt : PyRuntime) (now : string) (t : Tool) :
  t ∈ list_tools →
  ∃ shown, (call_tool rt now (tool_name t) []).2
             = inr [mkTextContent "text" shown].
Proof.
  intros Ht. unfold list_tools in Ht. rewrite !elem_of_cons in Ht.
  pose proof (str_int_zero rt) as H0.
  destruct Ht as [->|[->|[->|Ht]]]; unfold call_tool; simpl.
  - eauto.
  - rewrite !H0. simpl. change (0 + 0) with 0. rewrite H0. simpl. eauto.
  - eauto.
  - by apply elem_of_nil in Ht.
Qed.

(** X14. An argument that cannot be printed stops call_tool before the log
    message is sent, whatever the tool name and whether or not the tool reads
    that argument: building the first logger line over the arguments raises. *)
Theorem call_tool_unprintable_argument (rt : PyRuntime) (now name : string)
    (arguments : py_dict (py_value (Other rt))) :
  ¬ Forall (λ v, printable rt v) arguments.*2 →
  ∃ e, call_tool rt now name arguments = ([], inl e).
Proof.
  intros Hargs. apply format_all_unprintable in Hargs as [e He].
  exists e. unfold call_tool. by rewrite He.
Qed.

Lemma call_tool_unknown_witness :
  call_tool sample_runtime "2026-01-01T00:00:00+00:00" "multiply"
      [("a", PInt 2)] =
    ([mkLogMessage "info" "Executing tool 'multiply'" "tool_executor"],
     inr [mkTextContent "text" "Error: Unknown tool 'multiply'"]).
Proof.
  apply (call_tool_unknown sample_runtime _ "multiply").
  - by_evaluation.
  - by_evaluation.
Defined.

Lemma call_tool_add_integers_witness :
  call_tool sample_runtime "" "add" [("a", PInt (-7)); ("note", PStr "x")] =
    ([mkLogMessage "info" "Executing tool 'add'" "tool_executor"],
     inr [mkTextContent "text" "-7"]).
Proof.
  apply (call_tool_add_integers sample_runtime ""
           [("a", PInt (-7)); ("note", PStr "x")] (-7) 0).
  - by_evaluation.
  - reflexivity.
  - reflexivity.
  - right. vm_compute. lia.
Defined.

Lemma call_tool_add_unchecked_witness :
  call_tool sample_runtime "" "add" [("a", PStr "4"); ("b", PStr "2")] =
    ([mkLogMessage "info" "Executing tool 'add'" "tool_executor"],
     inr [mkTextContent "text" "42"]) ∧
  call_tool sample_runtime "" "add" [("a", PStr "4")] =
    ([mkLogMessage "info" "Executing tool 'add'" "tool_executor"],
     inl TypeError).
Proof.
  split.
  - destruct (call_tool_add_unchecked sample_runtime ""
                [("a", PStr "4"); ("b", PStr "2")]) as [Hcat _].
    + by_evaluation.
    + apply (Hcat "4" "2"); reflexivity.
  - destruct (call_tool_add_unchecked sample_runtime ""
                [("a", PStr "4")]) as (_ & Hmixed & _).
    + by_evaluation.
    + apply (Hmixed "4" 0); reflexivity.
Defined.

Lemma call_tool_reads_declared_only_witness :
  call_tool sample_runtime "" "add"
      (dict_set "c" (PInt 5) [("a", PInt 1); ("b", PInt 2)]) =
    call_tool sample_runtime "" "add" [("a", PInt 1); ("b", PInt 2)].
Proof.
  apply (call_tool_reads_declared_only sample_runtime ""
           (mkTool "add" "Adds two integers and returns the result."
              (mkInputSchema "object"
                 [("a", mkSchemaProperty "integer" "The first number.");
                  ("b", mkSchemaProperty "integer" "The second number.")]
                 (Some ["a"; "b"])))).
  - apply list_elem_of_further, list_elem_of_here.
  - by_evaluation.
  - vm_compute. exact I.
  - intros old Hold. vm_compute in Hold. discriminate Hold.
Defined.

Lemma call_tool_without_arguments_witness :
  ∃ shown, (call_tool sample_runtime "" "add" []).2
             = inr [mkTextContent "text" shown].
Proof.
  apply (call_tool_without_arguments sample_runtime ""
           (mkTool "add" "Adds two integers and returns the result."
              (mkInputSchema "object"
                 [("a", mkSchemaProperty "integer" "The first number.");
                  ("b", mkSchemaProperty "integer" "The second number.")]
                 (Some ["a"; "b"])))).
  apply list_elem_of_further, list_elem_of_here.
Defined.

Lemma call_tool_unprintable_argument_witness :
  ∃ e, call_tool sample_runtime_long "" "get_server_time"
         [("extra", POther ())] = ([], inl e).
Proof.
  apply (call_tool_unprintable_argument sample_runtime_long ""
           "get_server_time" [("extra", POther ())]).
  intros Hall. apply Forall_cons in Hall as [Hone _]. exact Hone.
Defined.
